(** * gossiper: last-write-wins state store and gossip engine

    A shallow embedding of [internal/server/game_server.go] (the core:
    [GameServer], [MergeState], [UpdatePlayerScore], [GetPlayerState],
    [gossipLoop], [gossipWithPeer]) and of the write handler of the HTTP
    transport ([HandleUpdate]).

    Conventions.
    - [int64] values are integers in [Z]; the core only stores and compares
      them, so no wrap-around arises.
    - A Go map is a reference to a mutable object.  Map objects live in a
      [heap] indexed by locations; [GameServer.PlayerMap] is a location.
    - Every method of [GameServer] that touches the map runs under [gs.mu]
      for its whole traversal, so each method is one atomic step on the
      world; the lock itself is not represented.
    - Effects on the outside (log lines, HTTP posts) are appended to a
      trace; inputs from the outside (the clock, the random source, the
      result of an HTTP post) are arguments. *)

From stdpp Require Import gmap strings list fin_maps pretty.
From Stdlib Require Import ZArith Lia.

Local Open Scope Z_scope.

(** ** Data model *)

(** [type PlayerState struct { Score int64; Timestamp int64 }] *)
Record PlayerState := mkPlayerState {
  Score : Z;
  Timestamp : Z
}.

#[global] Instance PlayerState_eq_dec : EqDecision PlayerState.
Proof. solve_decision. Defined.

#[global] Instance PlayerState_inhabited : Inhabited PlayerState :=
  populate (mkPlayerState 0 0).

(** Contents of a [map[string]PlayerState]. *)
Abbreviation PlayerMapT := (gmap string PlayerState).

(** Map objects are addressed by locations. *)
Abbreviation loc := positive.

(** [type GameServer struct { ID, Address string; Peers []string;
    PlayerMap map[string]PlayerState; mu sync.RWMutex }] *)
Record GameServer := mkGameServer {
  ID : string;
  Address : string;
  Peers : list string;
  PlayerMap : loc
}.

(** What a node does to the outside. *)
Inductive Event :=
  | EvLogMarshalFailed                          (* log.Println("failed to gossip with peer:", err) *)
  | EvLogUpdated (playerId : string) (score : Z) (* log.Printf("updated score for player %s. New score %d", ...) *)
  | EvRandIntn (n : nat)                        (* rand.Intn(n) *)
  | EvPost (url : string) (payload : PlayerMapT) (* http.Post(url, "application/json", payload) *)
  | EvCloseBody.                                 (* resp.Body.Close() *)

#[global] Instance Event_eq_dec : EqDecision Event.
Proof. solve_decision. Defined.

(** The state of one node process: the [GameServer] struct behind the
    receiver pointer, the map objects, and the effects performed so far
    (oldest first). *)
Record World := mkWorld {
  self : GameServer;
  heap : gmap loc PlayerMapT;
  trace : list Event
}.

(** Reading the map object at a location. *)
Definition load (l : loc) (h : gmap loc PlayerMapT) : PlayerMapT :=
  default ∅ (h !! l).

(** The contents of [gs.PlayerMap]. *)
Definition store (w : World) : PlayerMapT :=
  load (PlayerMap (self w)) (heap w).

(** [gs.PlayerMap] designates a map object of the heap. *)
Definition live (w : World) : Prop :=
  is_Some (heap w !! PlayerMap (self w)).

(** In-place mutation of [gs.PlayerMap]. *)
Definition set_store (m : PlayerMapT) (w : World) : World :=
  {| self := self w;
     heap := <[PlayerMap (self w) := m]> (heap w);
     trace := trace w |}.

Definition emit (e : Event) (w : World) : World :=
  {| self := self w; heap := heap w; trace := trace w ++ [e] |}.

(** ** Construction *)

(** [NewGameServer]: the struct with a freshly made, empty [PlayerMap]. *)
Definition NewGameServer (id addr : string) (peers : list string) : World :=
  let l := fresh (∅ : gset loc) in
  {| self := {| ID := id; Address := addr; Peers := peers; PlayerMap := l |};
     heap := {[ l := ∅ ]};
     trace := [] |}.

(** ** MergeState *)

(** Body of the loop of [MergeState] for one entry of the incoming map:
<<
    localState, exists := gs.PlayerMap[playerId]
    if !exists || incomingState.Timestamp > localState.Timestamp {
        gs.PlayerMap[playerId] = PlayerState{Score: ..., Timestamp: ...}
    }
>> *)
Definition mergeEntry (playerId : string) (incomingState : PlayerState)
    (m : PlayerMapT) : PlayerMapT :=
  match m !! playerId with
  | None =>
      <[playerId := mkPlayerState (Score incomingState) (Timestamp incomingState)]> m
  | Some localState =>
      if Timestamp incomingState >? Timestamp localState
      then <[playerId := mkPlayerState (Score incomingState) (Timestamp incomingState)]> m
      else m
  end.

(** The [for ... range incomingMap] loop, over the entries in the order
    in which the runtime enumerates them. *)
Fixpoint mergeLoop (entries : list (string * PlayerState)) (m : PlayerMapT)
    : PlayerMapT :=
  match entries with
  | [] => m
  | (playerId, incomingState) :: rest =>
      mergeLoop rest (mergeEntry playerId incomingState m)
  end.

(** The loop on the contents of the two maps.  Go enumerates a map in an
    unspecified order; [mergeLoop_any_order] below shows that the order
    does not matter, so the enumeration [map_to_list] is used. *)
Definition mergeMaps (incomingMap local : PlayerMapT) : PlayerMapT :=
  mergeLoop (map_to_list incomingMap) local.

(** [func (gs *GameServer) MergeState(incomingMap map[string]PlayerState)].
    [incomingMap] is only read, so its contents are passed. *)
Definition MergeState (incomingMap : PlayerMapT) (w : World) : World :=
  set_store (mergeMaps incomingMap (store w)) w.

(** ** UpdatePlayerScore *)

(** [func (gs *GameServer) UpdatePlayerScore(playerId string, score int64)];
    [now] is the value of [time.Now().UnixNano()] read during the call. *)
Definition UpdatePlayerScore (now : Z) (playerId : string) (score : Z)
    (w : World) : World :=
  emit (EvLogUpdated playerId score)
    (set_store (<[playerId := mkPlayerState score now]> (store w)) w).

(** ** GetPlayerState *)

(** The copy loop [for playerId, state := range gs.PlayerMap
    { result[playerId] = state }]. *)
Fixpoint copyLoop (entries : list (string * PlayerState)) (result : PlayerMapT)
    : PlayerMapT :=
  match entries with
  | [] => result
  | (playerId, state) :: rest => copyLoop rest (<[playerId := state]> result)
  end.

(** [func (gs *GameServer) GetPlayerState() map[string]PlayerState]:
    [make] allocates a new map object, the loop fills it, and the
    reference to it is returned. *)
Definition GetPlayerState (w : World) : loc * World :=
  let result := fresh (dom (heap w)) in
  let h1 := <[result := ∅]> (heap w) in
  let filled := copyLoop (map_to_list (store w)) (load result h1) in
  (result, {| self := self w; heap := <[result := filled]> h1; trace := trace w |}).

(** ** The gossip engine *)

(** [json.Marshal(gs.PlayerMap)].  The encoder cannot fail on a
    [map[string]PlayerState] (string keys, two [int64] fields); the wire
    format belongs to the transport, so the payload is represented by the
    contents it encodes. *)
Definition jsonMarshal (m : PlayerMapT) : option PlayerMapT := Some m.

(** Outcome of [http.Post]: [err != nil], or a response. *)
Inductive PostResult := PostErr | PostResp.

(** [func (gs *GameServer) gossipWithPeer(peerAddr string)].  The function
    has no result; a failed post returns early, a successful one closes
    the response body. *)
Definition gossipWithPeer (post : PostResult) (peerAddr : string) (w : World)
    : World :=
  let '(payload, w1) :=
    match jsonMarshal (store w) with
    | Some payload => (payload, w)
    | None => (∅, emit EvLogMarshalFailed w)
    end in
  let url := ("http://" +:+ peerAddr +:+ "/gossip")%string in
  let w2 := emit (EvPost url payload) w1 in
  match post with
  | PostErr => w2
  | PostResp => emit EvCloseBody w2
  end.

(** What one tick of the ticker draws from the outside: the number that
    [rand.Intn] returns (reduced into range) and the outcome of the post. *)
Record Tick := mkTick {
  rnd : nat;
  post : PostResult
}.

(** One iteration of the body of [for range ticker.C] in [gossipLoop]:
<<
    if len(gs.Peers) == 0 { continue }
    peerAddr := gs.Peers[rand.Intn(len(gs.Peers))]
    gs.gossipWithPeer(peerAddr)
>> *)
Definition gossipTick (t : Tick) (w : World) : World :=
  let peers := Peers (self w) in
  if (length peers =? 0)%nat then w
  else
    let i := (rnd t mod length peers)%nat in
    let peerAddr := nth i peers ""%string in
    gossipWithPeer (post t) peerAddr (emit (EvRandIntn (length peers)) w).

(** [gossipLoop] over the ticks delivered so far by the ticker. *)
Fixpoint gossipLoop (ticks : list Tick) (w : World) : World :=
  match ticks with
  | [] => w
  | t :: rest => gossipLoop rest (gossipTick t w)
  end.

(** ** The write handler of the HTTP transport *)

Module Transport.

Local Open Scope string_scope.
Local Open Scope Z_scope.

(** The part of [*http.Request] that [HandleUpdate] reads: the parsed
    query of the URL, as key/value pairs in the order of the URL. *)
Record Request := mkRequest {
  Query : list (string * string)
}.

(** [url.Values.Get]: the first value of the key, or the empty string. *)
Fixpoint queryGet (key : string) (q : list (string * string)) : string :=
  match q with
  | [] => ""
  | (k, v) :: rest => if String.eqb k key then v else queryGet key rest
  end.

(** What the handler writes to its [http.ResponseWriter]. *)
Record Response := mkResponse {
  StatusCode : Z;
  Body : string
}.

Definition StatusOK : Z := 200.
Definition StatusBadRequest : Z := 400.

(** [http.Error(w, msg, code)]: the status line and the message followed
    by a newline. *)
Definition httpError (msg : string) (code : Z) : Response :=
  {| StatusCode := code; Body := msg +:+ String (Ascii.ascii_of_nat 10) "" |}.

(** *** [fmt.Sscanf(scoreStr, "%d", &score)]

    The scanner of Go's [fmt] package for the single verb [%d] and an
    [int] operand (64 bits on the platforms the program is built for):
    leading blanks are discarded ([SkipSpace]; a newline there is an
    error), an optional sign is accepted, then one or more decimal
    digits, as many as follow; the token is converted by
    [strconv.ParseInt(tok, 10, 64)], which fails outside the [int64]
    range.  Scanning stops there: input after the last digit is left
    unread and is not an error.  [None] stands for [err != nil].
    The model reads bytes; blanks outside ASCII are not treated. *)

Definition code (c : Ascii.ascii) : Z := Z.of_N (Ascii.N_of_ascii c).

Definition isNewline (c : Ascii.ascii) : bool := code c =? 10.

(** [isSpace] on ASCII: tab to carriage return, and the space. *)
Definition isSpace (c : Ascii.ascii) : bool :=
  ((9 <=? code c) && (code c <=? 13)) || (code c =? 32).

Definition isDigit (c : Ascii.ascii) : bool := (48 <=? code c) && (code c <=? 57).

Definition isSign (c : Ascii.ascii) : bool := (code c =? 43) || (code c =? 45).

(** [SkipSpace] of a scanner in which a newline is not a blank. *)
Fixpoint skipSpace (s : string) : option string :=
  match s with
  | EmptyString => Some EmptyString
  | String c rest =>
      if isNewline c then None
      else if isSpace c then skipSpace rest
      else Some s
  end.

(** The loop [for s.accept(digits) {}] with the value of the digits read
    so far. *)
Fixpoint scanDigits (s : string) (acc : Z) : Z :=
  match s with
  | EmptyString => acc
  | String c rest =>
      if isDigit c then scanDigits rest (10 * acc + (code c - 48)) else acc
  end.

Definition minInt64 : Z := - 2 ^ 63.
Definition maxInt64 : Z := 2 ^ 63 - 1.

(** [scanNumber] and [strconv.ParseInt] on the input after the sign. *)
Definition scanNumber (negative : bool) (s : string) : option Z :=
  match s with
  | EmptyString => None
  | String c _ =>
      if isDigit c then
        let v := scanDigits s 0 in
        let i := if negative then - v else v in
        if (minInt64 <=? i) && (i <=? maxInt64) then Some i else None
      else None
  end.

(** [scanInt] for the verb [%d]. *)
Definition scanInt (s : string) : option Z :=
  match skipSpace s with
  | None => None
  | Some EmptyString => None
  | Some (String c rest as s1) =>
      if isSign c then scanNumber (code c =? 45) rest
      else scanNumber false s1
  end.

Definition Sscanf_d (s : string) : option Z := scanInt s.

(** [func (s *Server) HandleUpdate(w http.ResponseWriter, r *http.Request)]:
    the response written and the world after the call; [now] is the clock
    value that [UpdatePlayerScore] reads if it is reached. *)
Definition HandleUpdate (now : Z) (r : Request) (w : World)
    : Response * World :=
  let playerId := queryGet "playerId" (Query r) in
  let scoreStr := queryGet "score" (Query r) in
  if String.eqb playerId "" || String.eqb scoreStr "" then
    (httpError "missing playerId or score" StatusBadRequest, w)
  else
    match Sscanf_d scoreStr with
    | None => (httpError "invalid playerId or score" StatusBadRequest, w)
    | Some score =>
        let w' := UpdatePlayerScore now playerId score w in
        ({| StatusCode := StatusOK; Body := "" |}, w')
    end.

(** *** The gossip and the state handlers *)

(** What [HandleGossip] reads of its request: the outcome of
    [json.NewDecoder(r.Body).Decode(&incomingMap)], an error or the
    decoded map (a body [null] decodes to a map without entries). *)
Record GossipRequest := mkGossipRequest {
  Decoded : option PlayerMapT
}.

(** [func (s *Server) HandleGossip(w http.ResponseWriter, r *http.Request)] *)
Definition HandleGossip (r : GossipRequest) (w : World) : Response * World :=
  match Decoded r with
  | None => (httpError "invalid request body" StatusBadRequest, w)
  | Some incomingMap =>
      ({| StatusCode := StatusOK; Body := "" |}, MergeState incomingMap w)
  end.

Definition StatusInternalServerError : Z := 500.

(** What [HandleGetState] does to its [http.ResponseWriter]: the headers
    it sets, the map it hands to the encoder, and the [http.Error] call
    it makes when the encoder reports an error. *)
Record StateResponse := mkStateResponse {
  Headers : list (string * string);
  Encoded : PlayerMapT;
  Failure : option Response
}.

(** [func (s *Server) HandleGetState(w http.ResponseWriter, r *http.Request)];
    [encodeErr] tells whether [json.NewEncoder(w).Encode(state)] returns
    an error (the encoder writes to the connection).  The map encoded is
    the one that [GetPlayerState] returned. *)
Definition HandleGetState (encodeErr : bool) (w : World)
    : StateResponse * World :=
  let '(state, w1) := GetPlayerState w in
  let headers :=
    [("Content-Type", "application/json"); ("Access-Control-Allow-Origin", "*")] in
  ({| Headers := headers;
      Encoded := load state (heap w1);
      Failure :=
        if encodeErr
        then Some (httpError "failed to encode state" StatusInternalServerError)
        else None |}, w1).

(** *** The score the specification asks for *)

(** A well-formed integer score, in the words of the specification: an
    optional sign, then one or more decimal digits and nothing else, with
    a value in the range of [int64]. *)
Fixpoint allDigits (s : string) : bool :=
  match s with
  | EmptyString => true
  | String c rest => isDigit c && allDigits rest
  end.

Definition wellFormedInt (s : string) : option Z :=
  match s with
  | EmptyString => None
  | String c rest =>
      if isSign c then
        if allDigits rest then scanNumber (code c =? 45) rest else None
      else
        if allDigits s then scanNumber false s else None
  end.

End Transport.

(** ** Sequences of operations *)

(** The two operations that mutate the store. *)
Inductive Op :=
  | OpSet (now : Z) (playerId : string) (score : Z)
  | OpMerge (incomingMap : PlayerMapT).

Definition applyOp (o : Op) (w : World) : World :=
  match o with
  | OpSet now playerId score => UpdatePlayerScore now playerId score w
  | OpMerge incomingMap => MergeState incomingMap w
  end.

Fixpoint run (ops : list Op) (w : World) : World :=
  match ops with
  | [] => w
  | o :: rest => run rest (applyOp o w)
  end.

(** Merging a list of payloads one after the other. *)
Fixpoint mergeAll (payloads : list PlayerMapT) (w : World) : World :=
  match payloads with
  | [] => w
  | p :: rest => mergeAll rest (MergeState p w)
  end.

(** Every operation of the core on one node. *)
Inductive CoreOp :=
  | CoWrite (o : Op)
  | CoSnapshot
  | CoTick (t : Tick)
  | CoDeliver (post : PostResult) (peerAddr : string).

Definition coreStep (c : CoreOp) (w : World) : World :=
  match c with
  | CoWrite o => applyOp o w
  | CoSnapshot => snd (GetPlayerState w)
  | CoTick t => gossipTick t w
  | CoDeliver p peerAddr => gossipWithPeer p peerAddr w
  end.

Fixpoint coreRun (cs : list CoreOp) (w : World) : World :=
  match cs with
  | [] => w
  | c :: rest => coreRun rest (coreStep c w)
  end.

(** ** The per-id rule, in the words of the specification *)

(** "Replace the local entry iff the id is locally absent or
    [incoming.timestamp > local.timestamp]"; an id that the incoming map
    does not mention keeps its entry. *)
Definition lwwRule (localState incoming : option PlayerState)
    : option PlayerState :=
  match incoming with
  | None => localState
  | Some i =>
      match localState with
      | None => Some i
      | Some l => if Timestamp i >? Timestamp l then Some i else Some l
      end
  end.

(** The greater of two timestamps, an absent entry counting as minus
    infinity. *)
Definition tsMax (a b : option Z) : option Z :=
  match a, b with
  | Some x, Some y => Some (Z.max x y)
  | Some x, None => Some x
  | None, _ => b
  end.

(** Two maps hold the same ids with the same timestamps. *)
Definition sameTimes (m m' : PlayerMapT) : Prop :=
  ∀ k, Timestamp <$> m !! k = Timestamp <$> m' !! k.

(** ** Payloads without conflicting ties *)

(** Two entries agree when equal timestamps come with equal scores. *)
Definition agree (a b : PlayerState) : bool :=
  negb (Timestamp a =? Timestamp b) || (Score a =? Score b).

(** No id has, in the two payloads, the same timestamp with two scores. *)
Definition tieConsistent (p q : PlayerMapT) : bool :=
  forallb (λ '(k, a), match q !! k with Some b => agree a b | None => true end)
    (map_to_list p).

(** The same for any two payloads of a list. *)
Definition tiesAgree (payloads : list PlayerMapT) : bool :=
  forallb (λ p, forallb (tieConsistent p) payloads) payloads.

(** ** The maximum observed timestamp *)

(** The entries that an operation presents to the store for an id: the
    stamped write of a [Set] on that id, or the entry of a merged
    payload for it. *)
Definition offered (playerId : string) (o : Op) : list PlayerState :=
  match o with
  | OpSet now id score =>
      if decide (id = playerId) then [ {| Score := score; Timestamp := now |} ] else []
  | OpMerge incomingMap => option_list (incomingMap !! playerId)
  end.

(** Everything observed for an id: the entry the store started with and
    what the operations presented, in order. *)
Definition observed (playerId : string) (ops : list Op) (w0 : World)
    : list PlayerState :=
  option_list (store w0 !! playerId) ++ flat_map (offered playerId) ops.

(** The store holds, for the id, an observed entry whose timestamp is the
    maximum of the observed timestamps (and no entry when nothing was
    observed). *)
Definition holdsMax (playerId : string) (seen : list PlayerState) (w : World)
    : Prop :=
  match store w !! playerId with
  | Some e => e ∈ seen ∧ Forall (λ e', Timestamp e' <= Timestamp e) seen
  | None => seen = []
  end.

(** A [Set] reads a clock value that is not behind the timestamp stored
    for the id it writes. *)
Definition clockNotBehind (o : Op) (w : World) : bool :=
  match o with
  | OpSet now playerId _ =>
      match store w !! playerId with
      | Some localState => Timestamp localState <=? now
      | None => true
      end
  | OpMerge _ => true
  end.

(** ... at every [Set] of a sequence of operations. *)
Fixpoint clockAhead (ops : list Op) (w : World) : bool :=
  match ops with
  | [] => true
  | o :: rest => clockNotBehind o w && clockAhead rest (applyOp o w)
  end.

(** ** Process start: [cmd/server/main.go] *)

Module Main.

Local Open Scope string_scope.

Definition isComma (c : Ascii.ascii) : bool :=
  Ascii.eqb c (Ascii.ascii_of_nat 44).

(** [strings.Split(s, ",")]: the substrings between the commas, one more
    than there are commas; the empty string gives one empty substring. *)
Fixpoint splitComma (s : string) : list string :=
  match s with
  | EmptyString => [""]
  | String c rest =>
      if isComma c then "" :: splitComma rest
      else
        match splitComma rest with
        | [] => [String c ""]
        | first :: others => String c first :: others
        end
  end.

(** The peer list of [main]: the empty slice when the value of the flag
    [-peers] is the empty string, and [strings.Split] of the value at
    the commas otherwise. *)
Definition parsePeers (peersStr : string) : list string :=
  if String.eqb peersStr "" then [] else splitComma peersStr.

(** Step 1 of [main], on the values of the flags [-id], [-addr] and
    [-peers]: the node that [server.NewGameServer] makes of the id, the
    address and the peer list. *)
Definition mainNode (id httpAddr peersStr : string) : World :=
  NewGameServer id httpAddr (parsePeers peersStr).

(** A string without commas. *)
Fixpoint commaFree (s : string) : bool :=
  match s with
  | EmptyString => true
  | String c rest => negb (isComma c) && commaFree rest
  end.

(** The number of commas of a string. *)
Fixpoint commas (s : string) : nat :=
  match s with
  | EmptyString => 0
  | String c rest => (if isComma c then 1 else 0) + commas rest
  end.

(** The strings of a list, with a comma between each two. *)
Fixpoint joinComma (l : list string) : string :=
  match l with
  | [] => ""
  | [x] => x
  | x :: rest => x +:+ "," +:+ joinComma rest
  end.

End Main.

(** ** The cluster script *)

Module Cluster.
Import Main.

Local Open Scope string_scope.

(** [N=10] and [BASE_PORT=8080]. *)
Definition N : nat := 10.
Definition BASE_PORT : nat := N.to_nat 8080.

(** ["localhost:$port"] with [port=$((BASE_PORT + j))]. *)
Definition nodeAddr (base j : nat) : string :=
  "localhost:" +:+ pretty (base + j)%nat.

(** ["node$i"] *)
Definition nodeId (i : nat) : string := "node" +:+ pretty i.

(** The inner loop of [start] for node [i], over the remaining values
    of [j]:
<<
    if [ $i -ne $j ]; then
        if [ -z "$peers" ]; then peers="localhost:$peer_port"
        else peers="$peers,localhost:$peer_port"; fi
    fi
>> *)
Fixpoint peersLoop (base i : nat) (js : list nat) (peers : string) : string :=
  match js with
  | [] => peers
  | j :: rest =>
      if (i =? j)%nat then peersLoop base i rest peers
      else if String.eqb peers "" then peersLoop base i rest (nodeAddr base j)
      else peersLoop base i rest (peers +:+ "," +:+ nodeAddr base j)
  end.

(** The value of [-peers] for node [i] of [n]: the loop over
    [$(seq 1 $N)] started with [peers=""]. *)
Definition peersArg (n base i : nat) : string :=
  peersLoop base i (seq 1 n) "".

(** The node that [go run ./cmd/server -id "$id" -addr "localhost:$port"
    -peers "$peers"] creates for [i]. *)
Definition startNode (n base i : nat) : World :=
  mainNode (nodeId i) (nodeAddr base i) (peersArg n base i).

(** [start]: the nodes for [i] in [$(seq 1 $N)]. *)
Definition start (n base : nat) : list World :=
  map (startNode n base) (seq 1 n).

End Cluster.

(** ** Auxiliary notions for the properties below *)

(** No entry of the incoming map is newer than the local entry of its
    id, and every id of the incoming map is known locally. *)
Definition notNewer (incomingMap local : PlayerMapT) : bool :=
  forallb (λ '(k, i),
             match local !! k with
             | Some l => Timestamp i <=? Timestamp l
             | None => false
             end)
    (map_to_list incomingMap).

(** One timestamp is at most another, an absent entry counting as less
    than any timestamp. *)
Definition tsLe (a b : option Z) : bool :=
  match a, b with
  | None, _ => true
  | Some x, Some y => x <=? y
  | Some _, None => false
  end.

(** The URLs of the posts of a trace, oldest first. *)
Fixpoint postTargets (tr : list Event) : list string :=
  match tr with
  | [] => []
  | EvPost url _ :: rest => url :: postTargets rest
  | _ :: rest => postTargets rest
  end.

(** The URL that [gossipWithPeer] posts to for a peer. *)
Definition gossipUrl (peerAddr : string) : string :=
  ("http://" +:+ peerAddr +:+ "/gossip")%string.

(** * Examples *)

(** The scenarios of the specification, on a node started without
    peers. *)

Definition node1 : World := NewGameServer "node1" "localhost:8081" [].

(** Scenario 1 and 5: an id unknown to the store is created with the
    incoming entry. *)
Example scenario_unknown_id :
  store (MergeState {[ "alice"%string := {| Score := 100; Timestamp := 5 |} ]} node1)
        !! "alice"%string
  = Some {| Score := 100; Timestamp := 5 |}.
Proof. reflexivity. Qed.

(** Scenario 2: an older incoming entry is discarded. *)
Example scenario_older_discarded :
  store (MergeState {[ "alice"%string := {| Score := 90; Timestamp := 4 |} ]}
           (UpdatePlayerScore 5 "alice" 100 node1)) !! "alice"%string
  = Some {| Score := 100; Timestamp := 5 |}.
Proof. reflexivity. Qed.

(** Scenario 3: a newer incoming entry replaces the local one. *)
Example scenario_newer_wins :
  store (MergeState {[ "alice"%string := {| Score := 200; Timestamp := 6 |} ]}
           (UpdatePlayerScore 5 "alice" 100 node1)) !! "alice"%string
  = Some {| Score := 200; Timestamp := 6 |}.
Proof. reflexivity. Qed.

(** An equal timestamp does not replace the local entry. *)
Example scenario_tie_keeps_local :
  store (MergeState {[ "alice"%string := {| Score := 200; Timestamp := 5 |} ]}
           (UpdatePlayerScore 5 "alice" 100 node1)) !! "alice"%string
  = Some {| Score := 100; Timestamp := 5 |}.
Proof. reflexivity. Qed.

(** Scenario 4: a tick without peers. *)
Example scenario_no_peers : gossipTick (mkTick 0 PostResp) node1 = node1.
Proof. reflexivity. Qed.

(** A tick with peers posts the contents of the store to the selected
    peer; a failed post leaves nothing else behind. *)
Example scenario_tick_posts :
  trace (gossipTick (mkTick 4 PostErr)
           (NewGameServer "node1" "localhost:8081"
              ["localhost:8082"; "localhost:8083"; "localhost:8084"]%string))
  = [EvRandIntn 3; EvPost "http://localhost:8083/gossip" ∅].
Proof. reflexivity. Qed.

Example sscanf_plain : Transport.Sscanf_d "1500" = Some 1500.
Proof. reflexivity. Qed.
Example sscanf_neg : Transport.Sscanf_d "  -42" = Some (-42).
Proof. reflexivity. Qed.
Example sscanf_word : Transport.Sscanf_d "abc" = None.
Proof. reflexivity. Qed.
Example sscanf_big : Transport.Sscanf_d "9223372036854775808" = None.
Proof. reflexivity. Qed.
Example sscanf_max : Transport.Sscanf_d "9223372036854775807" = Some 9223372036854775807.
Proof. reflexivity. Qed.
Example sscanf_trailing : Transport.Sscanf_d "12abc" = Some 12.
Proof. reflexivity. Qed.

(** * Facts about the merge loop *)

Section MergeFacts.

Implicit Types (m incoming : PlayerMapT) (k playerId : string).
Implicit Types (v : PlayerState) (l : list (string * PlayerState)).

Lemma mkPlayerState_eta v : mkPlayerState (Score v) (Timestamp v) = v.
Proof. by destruct v. Qed.

Lemma mergeEntry_lookup_eq k v m :
  mergeEntry k v m !! k = lwwRule (m !! k) (Some v).
Proof.
  unfold mergeEntry, lwwRule. rewrite mkPlayerState_eta.
  destruct (m !! k) as [old|] eqn:Hk.
  - destruct (Timestamp v >? Timestamp old); [by rewrite lookup_insert_eq|done].
  - by rewrite lookup_insert_eq.
Qed.

Lemma mergeEntry_lookup_ne k k' v m :
  k ≠ k' → mergeEntry k v m !! k' = m !! k'.
Proof.
  intros Hne. unfold mergeEntry.
  destruct (m !! k) as [old|]; [destruct (_ >? _)|]; by rewrite ?lookup_insert_ne.
Qed.

(** The loop decides every id on its own: the outcome for [k] depends
    only on the local entry and on the entry that the enumeration holds
    for [k]. *)
Lemma mergeLoop_lookup l m k :
  NoDup l.*1 →
  mergeLoop l m !! k = lwwRule (m !! k) ((list_to_map l : PlayerMapT) !! k).
Proof.
  revert m. induction l as [|[k0 v0] l IH]; intros m Hnd; simpl.
  - by rewrite lookup_empty.
  - inversion_clear Hnd as [|?? Hnotin Hnd'].
    rewrite IH by done.
    destruct (decide (k0 = k)) as [->|Hne].
    + rewrite lookup_insert_eq, mergeEntry_lookup_eq.
      assert ((list_to_map l : PlayerMapT) !! k = None) as ->
        by (by apply not_elem_of_list_to_map_1).
      done.
    + by rewrite lookup_insert_ne, mergeEntry_lookup_ne.
Qed.

Lemma mergeMaps_lookup incoming m k :
  mergeMaps incoming m !! k = lwwRule (m !! k) (incoming !! k).
Proof.
  unfold mergeMaps. rewrite mergeLoop_lookup by apply NoDup_fst_map_to_list.
  by rewrite list_to_map_to_list.
Qed.

(** Whatever order the runtime chooses to enumerate the incoming map in,
    the loop ends in the same map. *)
Lemma mergeLoop_any_order l incoming m :
  l ≡ₚ map_to_list incoming → mergeLoop l m = mergeMaps incoming m.
Proof.
  intros Hp. apply map_eq; intros k.
  rewrite mergeMaps_lookup, mergeLoop_lookup.
  - f_equal. rewrite <-(list_to_map_to_list incoming) at 1.
    apply (f_equal (.!! k)), list_to_map_proper; [|done].
    rewrite Hp. apply NoDup_fst_map_to_list.
  - rewrite Hp. apply NoDup_fst_map_to_list.
Qed.

Lemma lwwRule_idemp (x i : option PlayerState) :
  lwwRule (lwwRule x i) i = lwwRule x i.
Proof.
  destruct i as [i|], x as [x|]; simpl; try done.
  - destruct (Timestamp i >? Timestamp x) eqn:E; simpl.
    + by rewrite Z.gtb_ltb, Z.ltb_irrefl.
    + by rewrite E.
  - by rewrite Z.gtb_ltb, Z.ltb_irrefl.
Qed.

Lemma lwwRule_self (x : option PlayerState) : lwwRule x x = x.
Proof.
  destruct x as [x|]; simpl; [|done]. by rewrite Z.gtb_ltb, Z.ltb_irrefl.
Qed.

Lemma mergeMaps_idemp incoming m :
  mergeMaps incoming (mergeMaps incoming m) = mergeMaps incoming m.
Proof.
  apply map_eq; intros k. rewrite !mergeMaps_lookup. apply lwwRule_idemp.
Qed.

Lemma mergeMaps_self m : mergeMaps m m = m.
Proof. apply map_eq; intros k. rewrite mergeMaps_lookup. apply lwwRule_self. Qed.

Lemma mergeMaps_empty m : mergeMaps ∅ m = m.
Proof. apply map_eq; intros k. by rewrite mergeMaps_lookup, lookup_empty. Qed.

Lemma copyLoop_lookup l (result : PlayerMapT) k :
  NoDup l.*1 →
  copyLoop l result !! k
  = match (list_to_map l : PlayerMapT) !! k with
    | Some v => Some v
    | None => result !! k
    end.
Proof.
  revert result. induction l as [|[k0 v0] l IH]; intros result Hnd; simpl.
  - by rewrite lookup_empty.
  - inversion_clear Hnd as [|?? Hnotin Hnd'].
    rewrite IH by done.
    destruct (decide (k0 = k)) as [->|Hne].
    + rewrite !lookup_insert_eq.
      assert ((list_to_map l : PlayerMapT) !! k = None) as ->
        by (by apply not_elem_of_list_to_map_1).
      done.
    + by rewrite !lookup_insert_ne.
Qed.

(** The copy loop started on an empty map rebuilds the map it ranges
    over. *)
Lemma copyLoop_copies m : copyLoop (map_to_list m) ∅ = m.
Proof.
  apply map_eq; intros k.
  rewrite copyLoop_lookup by apply NoDup_fst_map_to_list.
  rewrite list_to_map_to_list, lookup_empty. by destruct (m !! k).
Qed.

End MergeFacts.

(** * Facts about the operations on the world *)

Section WorldFacts.

Implicit Types (w : World) (m incoming : PlayerMapT) (h : gmap loc PlayerMapT).

Lemma load_insert_eq (l : loc) m h : load l (<[l := m]> h) = m.
Proof. unfold load. by rewrite lookup_insert_eq. Qed.

Lemma load_insert_ne (l l' : loc) m h :
  l ≠ l' → load l' (<[l := m]> h) = load l' h.
Proof. intros. unfold load. by rewrite lookup_insert_ne. Qed.

Lemma store_set_store m w : store (set_store m w) = m.
Proof. apply load_insert_eq. Qed.

Lemma set_store_twice m1 m2 w : set_store m2 (set_store m1 w) = set_store m2 w.
Proof. unfold set_store; simpl. by rewrite insert_insert_eq. Qed.

Lemma store_emit e w : store (emit e w) = store w.
Proof. done. Qed.

Lemma store_MergeState incoming w :
  store (MergeState incoming w) = mergeMaps incoming (store w).
Proof. apply store_set_store. Qed.

Lemma store_UpdatePlayerScore now playerId score w :
  store (UpdatePlayerScore now playerId score w)
  = <[playerId := mkPlayerState score now]> (store w).
Proof. unfold UpdatePlayerScore. by rewrite store_emit, store_set_store. Qed.

Lemma self_applyOp o w : self (applyOp o w) = self w.
Proof. by destruct o. Qed.

Lemma self_run ops w : self (run ops w) = self w.
Proof.
  revert w. induction ops as [|o ops IH]; intros w; simpl; [done|].
  by rewrite IH, self_applyOp.
Qed.

(** The write operations touch no other map object than [gs.PlayerMap]. *)
Lemma heap_applyOp_other o w (l : loc) :
  l ≠ PlayerMap (self w) → heap (applyOp o w) !! l = heap w !! l.
Proof. intros Hne. destruct o; simpl; by rewrite lookup_insert_ne. Qed.

Lemma heap_run_other ops w (l : loc) :
  l ≠ PlayerMap (self w) → heap (run ops w) !! l = heap w !! l.
Proof.
  revert w. induction ops as [|o ops IH]; intros w Hne; simpl; [done|].
  rewrite IH by (by rewrite self_applyOp). by apply heap_applyOp_other.
Qed.

Lemma live_NewGameServer id addr peers : live (NewGameServer id addr peers).
Proof. unfold live, NewGameServer; simpl. rewrite lookup_singleton_eq. eauto. Qed.

Lemma live_applyOp o w : live w → live (applyOp o w).
Proof.
  intros _. unfold live. destruct o; simpl; rewrite lookup_insert_eq; eauto.
Qed.

(** The location that [make] returns is not in use. *)
Lemma GetPlayerState_fresh w : heap w !! fst (GetPlayerState w) = None.
Proof. simpl. apply not_elem_of_dom, is_fresh. Qed.

(** The heap after [GetPlayerState]: the old one plus the filled copy. *)
Lemma heap_GetPlayerState w :
  heap (snd (GetPlayerState w))
  = <[fst (GetPlayerState w) := store w]> (heap w).
Proof.
  simpl. rewrite load_insert_eq, copyLoop_copies. by rewrite insert_insert_eq.
Qed.

Lemma snapshot_contents w :
  load (fst (GetPlayerState w)) (heap (snd (GetPlayerState w))) = store w.
Proof. rewrite heap_GetPlayerState. apply load_insert_eq. Qed.

Lemma store_GetPlayerState w : store (snd (GetPlayerState w)) = store w.
Proof.
  unfold store at 1. rewrite heap_GetPlayerState.
  change (self (snd (GetPlayerState w))) with (self w).
  destruct (decide (fst (GetPlayerState w) = PlayerMap (self w))) as [->|Hne].
  - by rewrite load_insert_eq.
  - by rewrite load_insert_ne.
Qed.

Lemma gossipWithPeer_unfold p peerAddr w :
  gossipWithPeer p peerAddr w
  = let w2 := emit (EvPost ("http://" +:+ peerAddr +:+ "/gossip")%string (store w)) w in
    match p with PostErr => w2 | PostResp => emit EvCloseBody w2 end.
Proof. done. Qed.

Lemma self_coreStep c w : self (coreStep c w) = self w.
Proof.
  destruct c as [o| |t|p peerAddr]; simpl.
  - apply self_applyOp.
  - done.
  - unfold gossipTick. destruct (_ =? _)%nat; [done|]. by destruct (post t).
  - by destruct p.
Qed.

Lemma self_coreRun cs w : self (coreRun cs w) = self w.
Proof.
  revert w. induction cs as [|c cs IH]; intros w; simpl; [done|].
  by rewrite IH, self_coreStep.
Qed.

(** Without peers the whole loop does nothing, however many ticks. *)
Lemma gossipLoop_no_peers ticks w :
  Peers (self w) = [] → gossipLoop ticks w = w.
Proof.
  intros Hnil. induction ticks as [|t ticks IH]; simpl; [done|].
  unfold gossipTick. by rewrite Hnil.
Qed.

(** The loop goes on after a failed delivery: with peers, every tick
    makes its one post, whatever became of the posts before. *)
Lemma gossipTick_posts t w :
  Peers (self w) ≠ [] →
  ∃ peerAddr,
    peerAddr ∈ Peers (self w)
    ∧ trace (gossipTick t w)
      = trace w
        ++ [EvRandIntn (length (Peers (self w)));
            EvPost ("http://" +:+ peerAddr +:+ "/gossip")%string (store w)]
        ++ match post t with PostErr => [] | PostResp => [EvCloseBody] end.
Proof.
  intros Hne. unfold gossipTick.
  destruct (Peers (self w)) as [|p0 peers] eqn:Hpeers; [done|].
  change (length (p0 :: peers) =? 0)%nat with false. cbv iota.
  set (i := (rnd t mod length (p0 :: peers))%nat).
  exists (nth i (p0 :: peers) ""%string). split.
  - apply list_elem_of_In, nth_In. subst i. apply Nat.mod_upper_bound. done.
  - rewrite gossipWithPeer_unfold. destruct (post t); simpl;
      by rewrite <-?app_assoc.
Qed.

End WorldFacts.

(** On a world in which [gs.PlayerMap] is a map object of the heap,
    merging the contents of the store into the store changes nothing at
    all. *)
Lemma MergeState_own_store_live (w : World) :
  live w → MergeState (store w) w = w.
Proof.
  intros [m Hm]. unfold MergeState. rewrite mergeMaps_self.
  destruct w as [gs h tr]; unfold set_store, store, load in *; simpl in *.
  f_equal. apply insert_id. by rewrite Hm.
Qed.

(** * Facts about the order of merges *)

Section OrderFacts.

Implicit Types (p q m : PlayerMapT) (ps : list PlayerMapT) (w : World).

Lemma agree_eq a b : agree a b = true → Timestamp a = Timestamp b → a = b.
Proof.
  unfold agree. intros H Hts. destruct a as [sa ta], b as [sb tb]; simpl in *.
  subst tb. rewrite Z.eqb_refl in H; simpl in H.
  apply Z.eqb_eq in H. by subst.
Qed.

Lemma tieConsistent_lookup p q k a b :
  tieConsistent p q = true →
  p !! k = Some a → q !! k = Some b → Timestamp a = Timestamp b → a = b.
Proof.
  unfold tieConsistent. rewrite forallb_forall. intros Hall Hp Hq.
  specialize (Hall (k, a)). simpl in Hall. rewrite Hq in Hall.
  apply agree_eq, Hall, list_elem_of_In. by apply elem_of_map_to_list.
Qed.

Lemma lwwRule_comm (x i j : option PlayerState) :
  (∀ a b, i = Some a → j = Some b → Timestamp a = Timestamp b → a = b) →
  lwwRule (lwwRule x i) j = lwwRule (lwwRule x j) i.
Proof.
  intros Htie.
  destruct i as [[si ti]|], j as [[sj tj]|]; try done.
  assert (ti = tj → si = sj) as Heq.
  { intros ->. specialize (Htie _ _ eq_refl eq_refl eq_refl). congruence. }
  destruct x as [[sx tx]|]; simpl;
    repeat (match goal with
            | |- context [?a >? ?b] => destruct (Z.gtb_spec a b); simpl
            end); try done; try lia;
    (assert (ti = tj) as Ht by lia; by rewrite (Heq Ht), Ht).
Qed.

Lemma mergeMaps_comm p q m :
  tieConsistent p q = true →
  mergeMaps p (mergeMaps q m) = mergeMaps q (mergeMaps p m).
Proof.
  intros Htie. apply map_eq; intros k. rewrite !mergeMaps_lookup.
  symmetry. apply lwwRule_comm. intros a b. by apply tieConsistent_lookup.
Qed.

Lemma MergeState_comm p q w :
  tieConsistent p q = true →
  MergeState p (MergeState q w) = MergeState q (MergeState p w).
Proof.
  intros Htie. unfold MergeState.
  by rewrite !store_set_store, !set_store_twice, mergeMaps_comm.
Qed.

Lemma tiesAgree_In ps :
  tiesAgree ps = true ↔ ∀ p q, In p ps → In q ps → tieConsistent p q = true.
Proof.
  unfold tiesAgree. rewrite forallb_forall. split.
  - intros H p q Hp Hq. specialize (H p Hp). rewrite forallb_forall in H. auto.
  - intros H p Hp. rewrite forallb_forall. auto.
Qed.

Lemma tiesAgree_perm ps ps' :
  ps ≡ₚ ps' → tiesAgree ps = true → tiesAgree ps' = true.
Proof.
  intros Hp. rewrite !tiesAgree_In. intros H p q Hin Hin'.
  apply H; apply list_elem_of_In; rewrite Hp; by apply list_elem_of_In.
Qed.

Lemma tiesAgree_tail p ps : tiesAgree (p :: ps) = true → tiesAgree ps = true.
Proof.
  rewrite !tiesAgree_In. intros H a b Ha Hb. apply H; by right.
Qed.

Lemma mergeAll_perm ps ps' w :
  ps ≡ₚ ps' → tiesAgree ps = true → mergeAll ps w = mergeAll ps' w.
Proof.
  intros Hp. revert w.
  induction Hp as [|p ps ps' Hp IH|p q ps|ps ps' ps'' Hp1 IH1 Hp2 IH2];
    intros w Hties; simpl.
  - done.
  - apply IH. by apply tiesAgree_tail in Hties.
  - f_equal. apply MergeState_comm.
    apply tiesAgree_In with (p := p) (q := q) in Hties; simpl; auto.
  - rewrite IH1 by done. apply IH2. by apply (tiesAgree_perm ps).
Qed.

(** Merging [p] and then [q] is merging once the payload that [q]
    merged into [p] gives. *)
Lemma lwwRule_assoc (x a b : option PlayerState) :
  lwwRule (lwwRule x a) b = lwwRule x (lwwRule a b).
Proof.
  destruct x as [[sx tx]|], a as [[sa ta]|], b as [[sb tb]|]; simpl;
    repeat (match goal with
            | |- context [?u >? ?v] => destruct (Z.gtb_spec u v); simpl
            end); try done; lia.
Qed.

Lemma mergeMaps_assoc p q m :
  mergeMaps q (mergeMaps p m) = mergeMaps (mergeMaps q p) m.
Proof.
  apply map_eq; intros k. rewrite !mergeMaps_lookup. apply lwwRule_assoc.
Qed.

Lemma MergeState_assoc p q w :
  MergeState q (MergeState p w) = MergeState (mergeMaps q p) w.
Proof.
  unfold MergeState.
  by rewrite store_set_store, set_store_twice, mergeMaps_assoc.
Qed.

(** Timestamps alone: the rule keeps the greater one, so the order of
    the payloads never shows in the timestamps. *)
Lemma lwwRule_timestamp (x i : option PlayerState) :
  Timestamp <$> lwwRule x i = tsMax (Timestamp <$> x) (Timestamp <$> i).
Proof.
  destruct i as [[si ti]|], x as [[sx tx]|]; simpl; try done.
  destruct (Z.gtb_spec ti tx); simpl; f_equal; lia.
Qed.

Lemma tsMax_swap (x a b : option Z) :
  tsMax (tsMax x a) b = tsMax (tsMax x b) a.
Proof. destruct x, a, b; simpl; f_equal; lia. Qed.

Lemma mergeMaps_sameTimes p m m' :
  sameTimes m m' → sameTimes (mergeMaps p m) (mergeMaps p m').
Proof.
  intros H k. rewrite !mergeMaps_lookup, !lwwRule_timestamp. by rewrite (H k).
Qed.

Lemma mergeMaps_swap_sameTimes p q m m' :
  sameTimes m m' →
  sameTimes (mergeMaps p (mergeMaps q m)) (mergeMaps q (mergeMaps p m')).
Proof.
  intros H k. rewrite !mergeMaps_lookup, !lwwRule_timestamp, (H k).
  apply tsMax_swap.
Qed.

Lemma mergeAll_sameTimes ps w w' :
  sameTimes (store w) (store w') →
  sameTimes (store (mergeAll ps w)) (store (mergeAll ps w')).
Proof.
  revert w w'. induction ps as [|p ps IH]; intros w w' H; simpl; [done|].
  apply IH. rewrite !store_MergeState. by apply mergeMaps_sameTimes.
Qed.

Lemma mergeAll_perm_sameTimes ps ps' w w' :
  ps ≡ₚ ps' →
  sameTimes (store w) (store w') →
  sameTimes (store (mergeAll ps w)) (store (mergeAll ps' w')).
Proof.
  intros Hp. revert w w'.
  induction Hp as [|p ps ps' Hp IH|p q ps|ps ps' ps'' Hp1 IH1 Hp2 IH2];
    intros w w' H; simpl.
  - done.
  - apply IH. rewrite !store_MergeState. by apply mergeMaps_sameTimes.
  - apply mergeAll_sameTimes. rewrite !store_MergeState.
    by apply mergeMaps_swap_sameTimes.
  - intros k. rewrite (IH1 w w) by done. by apply IH2.
Qed.

(** In whatever order a collection of payloads is merged, every id ends
    with the same timestamp. *)
Lemma mergeAll_perm_timestamps ps ps' w k :
  ps ≡ₚ ps' →
  Timestamp <$> store (mergeAll ps w) !! k
  = Timestamp <$> store (mergeAll ps' w) !! k.
Proof. intros Hp. by apply mergeAll_perm_sameTimes. Qed.

End OrderFacts.

(** * Facts about the maximum observed timestamp *)

Section MaxFacts.

Implicit Types (k : string) (w : World) (seen : list PlayerState).

Lemma store_applyOp_lookup o w k :
  store (applyOp o w) !! k
  = match o with
    | OpSet now id score =>
        if decide (id = k) then Some {| Score := score; Timestamp := now |}
        else store w !! k
    | OpMerge incomingMap => lwwRule (store w !! k) (incomingMap !! k)
    end.
Proof.
  destruct o as [now id score|incoming]; simpl.
  - rewrite store_UpdatePlayerScore. case_decide as Hid.
    + subst. by rewrite lookup_insert_eq.
    + by rewrite lookup_insert_ne.
  - rewrite store_MergeState. apply mergeMaps_lookup.
Qed.

(** One operation: the entry stored afterwards is the maximum of the
    entry stored before and of what the operation presented. *)
Lemma applyOp_holdsMax o w k :
  clockNotBehind o w = true →
  holdsMax k (option_list (store w !! k) ++ offered k o) (applyOp o w).
Proof.
  intros Hclock. unfold holdsMax. rewrite store_applyOp_lookup.
  destruct o as [now id score|incoming]; simpl in *.
  - case_decide as Hid.
    + subst id. destruct (store w !! k) as [old|]; simpl.
      * apply Z.leb_le in Hclock. split; [set_solver|].
        repeat constructor; simpl; lia.
      * split; [set_solver|]. repeat constructor; simpl; lia.
    + rewrite app_nil_r. destruct (store w !! k) as [old|]; simpl; [|done].
      split; [set_solver|]. repeat constructor; lia.
  - destruct (incoming !! k) as [i|], (store w !! k) as [old|]; simpl.
    + destruct (Z.gtb_spec (Timestamp i) (Timestamp old)).
      * split; [set_solver|]. repeat constructor; lia.
      * split; [set_solver|]. repeat constructor; lia.
    + split; [set_solver|]. repeat constructor; lia.
    + split; [set_solver|]. repeat constructor; lia.
    + done.
Qed.

Lemma holdsMax_extend k head tail w1 w2 :
  holdsMax k head w1 →
  holdsMax k (option_list (store w1 !! k) ++ tail) w2 →
  holdsMax k (head ++ tail) w2.
Proof.
  unfold holdsMax. intros H1 H2.
  destruct (store w2 !! k) as [e|].
  - destruct H2 as [Hin Hmax].
    destruct (store w1 !! k) as [e1|]; simpl in *.
    + destruct H1 as [Hin1 Hmax1].
      apply Forall_cons in Hmax as [Hle Hmax]. split.
      * apply elem_of_cons in Hin as [->|Hin]; set_solver.
      * apply Forall_app; split; [|done].
        eapply Forall_impl; [exact Hmax1|]. simpl. intros; lia.
    + subst head. done.
  - apply app_eq_nil in H2 as [Hnone ->].
    destruct (store w1 !! k); [done|]. subst head. done.
Qed.

Lemma run_holdsMax ops w0 k :
  clockAhead ops w0 = true →
  holdsMax k (observed k ops w0) (run ops w0).
Proof.
  revert w0. induction ops as [|o ops IH]; intros w0 Hclock; simpl in *.
  - unfold holdsMax, observed; simpl. rewrite app_nil_r.
    destruct (store w0 !! k); simpl; [|done].
    split; [set_solver|]. repeat constructor; lia.
  - apply andb_true_iff in Hclock as [Ho Hrest].
    unfold observed; simpl. rewrite app_assoc.
    eapply holdsMax_extend.
    + by apply applyOp_holdsMax.
    + by apply IH.
Qed.

End MaxFacts.

(** * Facts about the write handler *)

Module TransportFacts.
Import Transport.

Local Open Scope string_scope.
Local Open Scope Z_scope.

Lemma sign_not_blank c : isSign c = true → isNewline c = false ∧ isSpace c = false.
Proof.
  unfold isSign, isNewline, isSpace.
  rewrite orb_true_iff, !Z.eqb_eq. intros Hc.
  split; apply not_true_is_false;
    rewrite ?orb_true_iff, ?andb_true_iff, ?Z.eqb_eq, ?Z.leb_le; lia.
Qed.

Lemma digit_not_blank c : isDigit c = true → isNewline c = false ∧ isSpace c = false.
Proof.
  unfold isDigit, isNewline, isSpace.
  rewrite andb_true_iff, !Z.leb_le. intros Hc.
  split; apply not_true_is_false;
    rewrite ?orb_true_iff, ?andb_true_iff, ?Z.eqb_eq, ?Z.leb_le; lia.
Qed.

(** Every well-formed integer score is scanned to its value. *)
Lemma wellFormedInt_scanned s n : wellFormedInt s = Some n → Sscanf_d s = Some n.
Proof.
  destruct s as [|c rest]; [done|].
  unfold wellFormedInt, Sscanf_d, scanInt.
  destruct (isSign c) eqn:Hsign.
  - destruct (sign_not_blank c Hsign) as [Hnl Hsp].
    simpl. rewrite Hnl, Hsp, Hsign. by destruct (allDigits rest).
  - destruct (allDigits (String c rest)) eqn:Hall; [|done].
    assert (isDigit c = true) as Hd
      by (simpl in Hall; by apply andb_true_iff in Hall as [? _]).
    destruct (digit_not_blank c Hd) as [Hnl Hsp].
    simpl skipSpace. rewrite Hnl, Hsp, Hsign. done.
Qed.

Lemma eqb_empty_false s : s ≠ "" → String.eqb s "" = false.
Proof. intros. by apply String.eqb_neq. Qed.

(** The handler reaches [UpdatePlayerScore] exactly when both query
    values are non-empty and the scanner returns a number. *)
Lemma HandleUpdate_accepts now r w score :
  queryGet "playerId" (Query r) ≠ "" →
  queryGet "score" (Query r) ≠ "" →
  Sscanf_d (queryGet "score" (Query r)) = Some score →
  HandleUpdate now r w
  = ({| StatusCode := StatusOK; Body := "" |},
     UpdatePlayerScore now (queryGet "playerId" (Query r)) score w).
Proof.
  intros Hid Hsc Hscan. unfold HandleUpdate.
  by rewrite (eqb_empty_false _ Hid), (eqb_empty_false _ Hsc), Hscan.
Qed.

Lemma HandleUpdate_rejects now r w :
  queryGet "playerId" (Query r) = ""
  ∨ queryGet "score" (Query r) = ""
  ∨ Sscanf_d (queryGet "score" (Query r)) = None →
  StatusCode (fst (HandleUpdate now r w)) = StatusBadRequest
  ∧ snd (HandleUpdate now r w) = w.
Proof.
  intros H. unfold HandleUpdate.
  destruct (String.eqb_spec (queryGet "playerId" (Query r)) "") as [Hid|Hid];
    [done|].
  destruct (String.eqb_spec (queryGet "score" (Query r)) "") as [Hsc|Hsc];
    [done|]. simpl.
  destruct H as [H|[H|H]]; [done|done|]. by rewrite H.
Qed.

(** A non-empty id with a well-formed integer score reaches the core. *)
Lemma HandleUpdate_wellFormed now r w score :
  queryGet "playerId" (Query r) ≠ "" →
  wellFormedInt (queryGet "score" (Query r)) = Some score →
  HandleUpdate now r w
  = ({| StatusCode := StatusOK; Body := "" |},
     UpdatePlayerScore now (queryGet "playerId" (Query r)) score w).
Proof.
  intros Hid Hwf. apply HandleUpdate_accepts; [done| |by apply wellFormedInt_scanned].
  intros Hempty. by rewrite Hempty in Hwf.
Qed.

End TransportFacts.

(** * The properties of the specification *)

(** C1. For every incoming map and every store state, [MergeState]
    replaces the local entry of an id exactly when the incoming map has an
    entry for it and the id is locally absent or the incoming timestamp is
    strictly greater than the local one; with an equal or smaller incoming
    timestamp the local entry stays as it is.  No entry is removed, an id
    that the incoming map does not mention keeps its entry, and nothing
    but the store changes. *)
Theorem C1_merge_rule (incomingMap : PlayerMapT) (w : World) (playerId : string) :
  store (MergeState incomingMap w) !! playerId
  = match incomingMap !! playerId with
    | None => store w !! playerId
    | Some incomingState =>
        match store w !! playerId with
        | None => Some incomingState
        | Some localState =>
            if Timestamp incomingState >? Timestamp localState
            then Some incomingState
            else Some localState
        end
    end
  ∧ dom (store w) ⊆ dom (store (MergeState incomingMap w))
  ∧ self (MergeState incomingMap w) = self w
  ∧ trace (MergeState incomingMap w) = trace w.
Proof.
  split; [|split; [|done]].
  - rewrite store_MergeState. apply mergeMaps_lookup.
  - intros k. rewrite !elem_of_dom, store_MergeState, mergeMaps_lookup.
    intros [l ->]. destruct (incomingMap !! k) as [i|]; simpl; [|eauto].
    destruct (_ >? _); eauto.
Qed.

(** C2, as stated: after any merge of any sequence of [Set] and [Merge]
    operations the store holds the maximum observed timestamp.  A [Set]
    whose clock value is behind a timestamp merged earlier refutes it:
    the write replaces the entry with the smaller timestamp, and a later
    merge that does not mention the id leaves it there. *)
Lemma C2_max_counterexample :
  let w0 := NewGameServer "node1" "localhost:8081" [] in
  let ops :=
    [ OpMerge {[ "alice"%string := {| Score := 1; Timestamp := 100 |} ]};
      OpSet 50 "alice" 2;
      OpMerge {[ "bob"%string := {| Score := 7; Timestamp := 60 |} ]} ] in
  store (run ops w0) !! "alice"%string = Some {| Score := 2; Timestamp := 50 |}
  ∧ {| Score := 1; Timestamp := 100 |} ∈ observed "alice" ops w0
  ∧ ¬ holdsMax "alice" (observed "alice" ops w0) (run ops w0).
Proof.
  intros w0 ops.
  assert (store (run ops w0) !! "alice"%string
          = Some {| Score := 2; Timestamp := 50 |}) as Hst by reflexivity.
  assert (observed "alice" ops w0
          = [ {| Score := 1; Timestamp := 100 |}; {| Score := 2; Timestamp := 50 |} ])
    as Hobs by reflexivity.
  split; [exact Hst|]. split; [rewrite Hobs; apply list_elem_of_here|].
  unfold holdsMax. rewrite Hst, Hobs. intros [_ Hmax].
  apply Forall_cons in Hmax as [Hle _]. simpl in Hle. lia.
Qed.

(** C2, amended.  For every sequence of [UpdatePlayerScore] and
    [MergeState] operations in which each [UpdatePlayerScore] stamps a
    clock value that is not behind the timestamp stored for the id it
    writes, after every operation (so after every merge) the stored
    timestamp of each id is the maximum timestamp observed for the id in
    the initial store, the local writes and the merged payloads so far,
    and the stored entry is an observed one carrying that maximum; an id
    for which nothing was observed has no entry. *)
Theorem C2_max_timestamp (ops : list Op) (w0 : World) (playerId : string) :
  clockAhead ops w0 = true →
  holdsMax playerId (observed playerId ops w0) (run ops w0).
Proof. apply run_holdsMax. Qed.

Lemma C2_max_timestamp_witness :
  let w0 := NewGameServer "node1" "localhost:8081" [] in
  let ops :=
    [ OpSet 50 "alice" 2;
      OpMerge {[ "alice"%string := {| Score := 1; Timestamp := 100 |} ]};
      OpSet 120 "alice" 3;
      OpMerge {[ "alice"%string := {| Score := 9; Timestamp := 110 |} ]} ] in
  clockAhead ops w0 = true
  ∧ holdsMax "alice" (observed "alice" ops w0) (run ops w0).
Proof.
  intros w0 ops.
  assert (clockAhead ops w0 = true) as Hclock by (vm_compute; reflexivity).
  split; [exact Hclock|].
  exact (C2_max_timestamp ops w0 "alice" Hclock).
Defined.

(** C3. For every id, score and prior store state, [UpdatePlayerScore]
    writes the entry made of the given score and of the clock value read
    during the call, whatever entry (with whatever timestamp) was there
    before and also when there was none; the other ids keep their
    entries. *)
Theorem C3_set_overwrites (now : Z) (playerId : string) (score : Z) (w : World) :
  store (UpdatePlayerScore now playerId score w) !! playerId
  = Some {| Score := score; Timestamp := now |}
  ∧ store (UpdatePlayerScore now playerId score w)
    = <[playerId := {| Score := score; Timestamp := now |}]> (store w)
  ∧ self (UpdatePlayerScore now playerId score w) = self w.
Proof.
  rewrite store_UpdatePlayerScore. by rewrite lookup_insert_eq.
Qed.

(** C4. [MergeState] is idempotent: merging the same payload a second
    time gives the state that the first merge gave. *)
Theorem C4_merge_idempotent (incomingMap : PlayerMapT) (w : World) :
  MergeState incomingMap (MergeState incomingMap w) = MergeState incomingMap w.
Proof.
  unfold MergeState at 1 3. rewrite store_MergeState, mergeMaps_idemp.
  unfold MergeState. apply set_store_twice.
Qed.

(** C5, as stated: the payloads applied in any order give the same final
    store.  Two payloads that carry the same timestamp with two different
    scores for one id refute it: the one merged first stays. *)
Lemma C5_order_counterexample :
  let w := NewGameServer "node1" "localhost:8081" [] in
  let p : PlayerMapT := {[ "alice"%string := {| Score := 1; Timestamp := 100 |} ]} in
  let q : PlayerMapT := {[ "alice"%string := {| Score := 2; Timestamp := 100 |} ]} in
  [p; q] ≡ₚ [q; p] ∧ mergeAll [p; q] w ≠ mergeAll [q; p] w.
Proof.
  intros w p q. split; [apply perm_swap|].
  intros H. apply (f_equal (λ w', store w' !! "alice"%string)) in H.
  vm_compute in H. discriminate.
Qed.

(** C5, amended.  For every store state and every list of payloads in
    which no id carries one timestamp with two different scores, applying
    [MergeState] with the payloads in any order yields the same final
    state. *)
Theorem C5_merge_order_irrelevant (payloads payloads' : list PlayerMapT) (w : World) :
  payloads ≡ₚ payloads' →
  tiesAgree payloads = true →
  mergeAll payloads w = mergeAll payloads' w.
Proof. apply mergeAll_perm. Qed.

Lemma C5_merge_order_irrelevant_witness :
  let w := UpdatePlayerScore 10 "alice" 5 (NewGameServer "node1" "localhost:8081" []) in
  let p : PlayerMapT := {[ "alice"%string := {| Score := 1; Timestamp := 100 |} ]} in
  let q : PlayerMapT :=
    <[ "bob"%string := {| Score := 4; Timestamp := 7 |} ]>
      {[ "alice"%string := {| Score := 2; Timestamp := 101 |} ]} in
  [p; q] ≡ₚ [q; p] ∧ tiesAgree [p; q] = true
  ∧ mergeAll [p; q] w = mergeAll [q; p] w.
Proof.
  intros w p q.
  assert ([p; q] ≡ₚ [q; p]) as Hperm by apply perm_swap.
  assert (tiesAgree [p; q] = true) as Hties by (vm_compute; reflexivity).
  split; [exact Hperm|]. split; [exact Hties|].
  exact (C5_merge_order_irrelevant [p; q] [q; p] w Hperm Hties).
Defined.

(** C6. [GetPlayerState] returns a map object of its own: it is not the
    object behind [gs.PlayerMap], it holds exactly the entries of the
    store at the time of the call, the call changes neither the store nor
    any other object that existed, and whatever sequence of
    [UpdatePlayerScore] and [MergeState] is applied to the store
    afterwards, the returned map still holds the entries it was returned
    with. *)
Theorem C6_snapshot_independent (w : World) (ops : list Op) :
  live w →
  let snap := fst (GetPlayerState w) in
  let w1 := snd (GetPlayerState w) in
  snap ≠ PlayerMap (self w1)
  ∧ load snap (heap w1) = store w
  ∧ store w1 = store w
  ∧ delete snap (heap w1) = heap w
  ∧ self w1 = self w
  ∧ trace w1 = trace w
  ∧ load snap (heap (run ops w1)) = store w.
Proof.
  intros Hlive snap w1.
  assert (heap w !! snap = None) as Hfresh by apply GetPlayerState_fresh.
  assert (snap ≠ PlayerMap (self w1)) as Hne.
  { intros Heq. destruct Hlive as [m Hm].
    change (self w1) with (self w) in Heq. rewrite <-Heq in Hm. congruence. }
  split; [done|]. split; [apply snapshot_contents|].
  split; [apply store_GetPlayerState|]. split.
  { subst w1. rewrite heap_GetPlayerState. by apply delete_insert_id. }
  split; [done|]. split; [done|].
  unfold load. rewrite heap_run_other by done.
  apply snapshot_contents.
Qed.

Lemma C6_snapshot_independent_witness :
  let w := UpdatePlayerScore 10 "alice" 100 (NewGameServer "node1" "localhost:8081" []) in
  let ops := [OpSet 20 "alice" 7; OpMerge {[ "bob"%string := mkPlayerState 3 30 ]}] in
  live w
  ∧ load (fst (GetPlayerState w)) (heap (run ops (snd (GetPlayerState w))))
    = store w.
Proof.
  intros w ops.
  assert (live w) as Hlive by (unfold live; vm_compute; eauto).
  split; [exact Hlive|].
  apply (C6_snapshot_independent w ops Hlive).
Defined.

(** C7. A tick of the gossip loop at which the peer list is empty leaves
    the world as it is: the store is unchanged, no random number is drawn
    to select a peer, nothing is posted and nothing is logged. *)
Theorem C7_empty_peers_tick_noop (t : Tick) (w : World) :
  Peers (self w) = [] → gossipTick t w = w.
Proof. intros Hnil. unfold gossipTick. by rewrite Hnil. Qed.

Lemma C7_empty_peers_tick_noop_witness :
  Peers (self (NewGameServer "node1" "localhost:8081" [])) = []
  ∧ gossipTick (mkTick 3 PostErr) (NewGameServer "node1" "localhost:8081" [])
    = NewGameServer "node1" "localhost:8081" [].
Proof.
  split; [reflexivity|].
  apply (C7_empty_peers_tick_noop (mkTick 3 PostErr)). reflexivity.
Defined.

(** C8. No operation of the core (a write by [UpdatePlayerScore] or
    [MergeState], a snapshot, a tick of the gossip loop, a delivery to a
    peer whether it succeeds or fails) changes [Peers]; a delivery whose
    post fails returns normally, having changed neither the server nor
    any map, with the one post attempt as its only trace. *)
Theorem C8_peers_fixed (cs : list CoreOp) (peerAddr : string) (w : World) :
  Peers (self (coreRun cs w)) = Peers (self w)
  ∧ self (gossipWithPeer PostErr peerAddr w) = self w
  ∧ heap (gossipWithPeer PostErr peerAddr w) = heap w
  ∧ trace (gossipWithPeer PostErr peerAddr w)
    = trace w ++ [EvPost ("http://" +:+ peerAddr +:+ "/gossip")%string (store w)].
Proof. by rewrite self_coreRun. Qed.

Module TransportClaims.
Import Transport.

Local Open Scope string_scope.
Local Open Scope Z_scope.

(** C9.  The specification has the handler call [UpdatePlayerScore]
    only for a non-empty id and a well-formed integer score, and answer
    every other request with a client error without calling the core.
    The code at a score string that is not an integer, a number followed
    by other characters: the scanner stops after the digits without an
    error, the handler answers 200 and the store receives the number
    read. *)
Theorem C9_trailing_input_reaches_core (now : Z) (w : World) :
  let r := {| Query := [("playerId", "alice"); ("score", "12abc")] |} in
  wellFormedInt "12abc" = None
  ∧ HandleUpdate now r w
    = ({| StatusCode := 200; Body := "" |}, UpdatePlayerScore now "alice" 12 w)
  ∧ store (snd (HandleUpdate now r w)) !! "alice"
    = Some {| Score := 12; Timestamp := now |}.
Proof.
  intros r. split; [reflexivity|]. split; [reflexivity|].
  change (snd (HandleUpdate now r w)) with (UpdatePlayerScore now "alice" 12 w).
  rewrite store_UpdatePlayerScore. apply lookup_insert_eq.
Qed.

End TransportClaims.

(** C10. Merging a store's own snapshot back into it is a no-op: the map
    that [GetPlayerState] returns, merged into the store it was taken
    from, leaves every entry as it was, and so does the payload that the
    node itself gossips (the contents of its store) when it is echoed
    back; merging an empty payload changes nothing either. *)
Theorem C10_own_snapshot_noop (w : World) :
  let snap := fst (GetPlayerState w) in
  let w1 := snd (GetPlayerState w) in
  store (MergeState (load snap (heap w1)) w1) = store w
  ∧ self (MergeState (load snap (heap w1)) w1) = self w
  ∧ trace (MergeState (load snap (heap w1)) w1) = trace w
  ∧ store (MergeState (store w) w) = store w
  ∧ store (MergeState ∅ w) = store w.
Proof.
  intros snap w1. subst snap w1.
  rewrite snapshot_contents, !store_MergeState, store_GetPlayerState.
  by rewrite mergeMaps_self, mergeMaps_empty.
Qed.

(** * Further properties of the code *)

(** ** The merge *)

(** X1. The map that [MergeState] leaves does not depend on the order in
    which the runtime enumerates the incoming map: the loop run over any
    enumeration of its entries ends in the same map. *)
Theorem X1_merge_enumeration_order
    (entries : list (string * PlayerState)) (incomingMap m : PlayerMapT) :
  entries ≡ₚ map_to_list incomingMap →
  mergeLoop entries m = mergeMaps incomingMap m.
Proof. apply mergeLoop_any_order. Qed.

Lemma X1_merge_enumeration_order_witness :
  let incomingMap : PlayerMapT :=
    <[ "bob"%string := {| Score := 4; Timestamp := 7 |} ]>
      {[ "alice"%string := {| Score := 2; Timestamp := 101 |} ]} in
  let m : PlayerMapT := {[ "alice"%string := {| Score := 1; Timestamp := 100 |} ]} in
  reverse (map_to_list incomingMap) ≡ₚ map_to_list incomingMap
  ∧ mergeLoop (reverse (map_to_list incomingMap)) m = mergeMaps incomingMap m.
Proof.
  intros incomingMap m.
  assert (reverse (map_to_list incomingMap) ≡ₚ map_to_list incomingMap) as Hp
    by apply reverse_Permutation.
  split; [exact Hp|].
  exact (X1_merge_enumeration_order _ incomingMap m Hp).
Defined.

(** X2. After [MergeState] the timestamp stored for an id is the greater
    of the local and the incoming timestamp (an absent entry counting as
    less than any timestamp): a merge never lowers a stored timestamp. *)
Theorem X2_merge_keeps_greater_timestamp
    (incomingMap : PlayerMapT) (w : World) (playerId : string) :
  Timestamp <$> store (MergeState incomingMap w) !! playerId
  = tsMax (Timestamp <$> store w !! playerId)
          (Timestamp <$> incomingMap !! playerId).
Proof. rewrite store_MergeState, mergeMaps_lookup. apply lwwRule_timestamp. Qed.

(** X3. The ids of the store after [MergeState] are the ids it had
    together with the ids of the incoming map. *)
Theorem X3_merge_ids (incomingMap : PlayerMapT) (w : World) :
  dom (store (MergeState incomingMap w)) = dom (store w) ∪ dom incomingMap.
Proof.
  apply set_eq; intros k.
  rewrite elem_of_union, !elem_of_dom, store_MergeState, mergeMaps_lookup.
  unfold lwwRule.
  destruct (incomingMap !! k) as [i|], (store w !! k) as [l|];
    try destruct (_ >? _); split; eauto; intros [[? ?]|[? ?]]; eauto; done.
Qed.

Lemma notNewer_lookup (incomingMap local : PlayerMapT) k i :
  notNewer incomingMap local = true →
  incomingMap !! k = Some i →
  ∃ l, local !! k = Some l ∧ Timestamp i <= Timestamp l.
Proof.
  unfold notNewer. rewrite forallb_forall. intros Hall Hk.
  specialize (Hall (k, i)). simpl in Hall.
  destruct (local !! k) as [l|].
  - exists l. split; [done|]. apply Z.leb_le, Hall, list_elem_of_In.
    by apply elem_of_map_to_list.
  - exfalso. apply (Bool.diff_false_true), Hall, list_elem_of_In.
    by apply elem_of_map_to_list.
Qed.

(** X4. A payload that brings nothing new is ignored as a whole: when
    every entry of the incoming map belongs to an id that the store
    knows with a timestamp at least as great, [MergeState] leaves the
    store as it is. *)
Theorem X4_stale_payload_ignored (incomingMap : PlayerMapT) (w : World) :
  notNewer incomingMap (store w) = true →
  store (MergeState incomingMap w) = store w.
Proof.
  intros Hstale. rewrite store_MergeState. apply map_eq; intros k.
  rewrite mergeMaps_lookup. unfold lwwRule.
  destruct (incomingMap !! k) as [i|] eqn:Hk; [|done].
  destruct (notNewer_lookup _ _ _ _ Hstale Hk) as (l & -> & Hle).
  destruct (Z.gtb_spec (Timestamp i) (Timestamp l)); [lia|done].
Qed.

Lemma X4_stale_payload_ignored_witness :
  let w :=
    UpdatePlayerScore 30 "bob" 8
      (UpdatePlayerScore 10 "alice" 5 (NewGameServer "node1" "localhost:8081" [])) in
  let incomingMap : PlayerMapT :=
    <[ "bob"%string := {| Score := 4; Timestamp := 30 |} ]>
      {[ "alice"%string := {| Score := 2; Timestamp := 9 |} ]} in
  notNewer incomingMap (store w) = true
  ∧ store (MergeState incomingMap w) = store w.
Proof.
  intros w incomingMap.
  assert (notNewer incomingMap (store w) = true) as Hstale
    by (vm_compute; reflexivity).
  split; [exact Hstale|].
  exact (X4_stale_payload_ignored incomingMap w Hstale).
Defined.

(** X5. Two payloads merged one after the other act as one payload: the
    world after merging [p] and then [q] is the world after merging the
    map that merging [q] into [p] gives. *)
Theorem X5_merges_combine (p q : PlayerMapT) (w : World) :
  MergeState q (MergeState p w) = MergeState (mergeMaps q p) w.
Proof. apply MergeState_assoc. Qed.

(** X6. In whatever order a collection of payloads is merged, every id
    ends with the same timestamp (the scores may differ on ties). *)
Theorem X6_order_keeps_timestamps
    (payloads payloads' : list PlayerMapT) (w : World) (playerId : string) :
  payloads ≡ₚ payloads' →
  Timestamp <$> store (mergeAll payloads w) !! playerId
  = Timestamp <$> store (mergeAll payloads' w) !! playerId.
Proof. apply mergeAll_perm_timestamps. Qed.

Lemma X6_order_keeps_timestamps_witness :
  let w := NewGameServer "node1" "localhost:8081" [] in
  let p : PlayerMapT := {[ "alice"%string := {| Score := 1; Timestamp := 100 |} ]} in
  let q : PlayerMapT := {[ "alice"%string := {| Score := 2; Timestamp := 100 |} ]} in
  [p; q] ≡ₚ [q; p]
  ∧ Timestamp <$> store (mergeAll [p; q] w) !! "alice"%string
    = Timestamp <$> store (mergeAll [q; p] w) !! "alice"%string.
Proof.
  intros w p q.
  assert ([p; q] ≡ₚ [q; p]) as Hp by apply perm_swap.
  split; [exact Hp|].
  exact (X6_order_keeps_timestamps [p; q] [q; p] w "alice" Hp).
Defined.

(** X7. A local write against later gossip: after [UpdatePlayerScore]
    has written an id at clock value [now], a merged payload replaces
    that entry exactly when it has an entry for the id with a timestamp
    strictly greater than [now]; otherwise the local write stays. *)
Theorem X7_write_then_merge
    (now : Z) (playerId : string) (score : Z) (incomingMap : PlayerMapT) (w : World) :
  store (MergeState incomingMap (UpdatePlayerScore now playerId score w)) !! playerId
  = match incomingMap !! playerId with
    | Some incomingState =>
        if Timestamp incomingState >? now then Some incomingState
        else Some {| Score := score; Timestamp := now |}
    | None => Some {| Score := score; Timestamp := now |}
    end.
Proof.
  rewrite store_MergeState, mergeMaps_lookup, store_UpdatePlayerScore.
  rewrite lookup_insert_eq. unfold lwwRule. by destruct (incomingMap !! playerId).
Qed.

(** ** The gossip engine and the snapshots *)

Section EngineFacts.

Implicit Types (w : World) (t : Tick) (ticks : list Tick).

Lemma heap_gossipWithPeer p peerAddr w :
  heap (gossipWithPeer p peerAddr w) = heap w.
Proof. by destruct p. Qed.

Lemma heap_gossipTick t w : heap (gossipTick t w) = heap w.
Proof.
  unfold gossipTick. destruct (_ =? _)%nat; [done|]. by destruct (post t).
Qed.

Lemma self_gossipTick t w : self (gossipTick t w) = self w.
Proof. apply (self_coreStep (CoTick t)). Qed.

Lemma store_gossipTick t w : store (gossipTick t w) = store w.
Proof. unfold store. by rewrite heap_gossipTick, self_gossipTick. Qed.

Lemma store_coreStep_dom c w : dom (store w) ⊆ dom (store (coreStep c w)).
Proof.
  destruct c as [[now id score|incoming]| |t|p peerAddr]; cbn [coreStep applyOp].
  - rewrite store_UpdatePlayerScore, dom_insert_L. set_solver.
  - intros k. rewrite !elem_of_dom, store_MergeState, mergeMaps_lookup.
    intros [l ->]. unfold lwwRule. destruct (incoming !! k); [|eauto].
    destruct (_ >? _); eauto.
  - by rewrite store_GetPlayerState.
  - by rewrite store_gossipTick.
  - unfold store. rewrite heap_gossipWithPeer. by destruct p.
Qed.

Lemma live_coreStep c w : live w → live (coreStep c w).
Proof.
  intros Hlive. destruct c as [o| |t|p peerAddr]; cbn [coreStep].
  - by apply live_applyOp.
  - unfold live. rewrite heap_GetPlayerState.
    change (self (snd (GetPlayerState w))) with (self w).
    destruct (decide (fst (GetPlayerState w) = PlayerMap (self w))) as [->|Hne].
    + rewrite lookup_insert_eq. eauto.
    + by rewrite lookup_insert_ne.
  - unfold live. by rewrite heap_gossipTick, self_gossipTick.
  - unfold live. rewrite heap_gossipWithPeer. by destruct p.
Qed.

Lemma live_coreRun cs w : live w → live (coreRun cs w).
Proof.
  revert w. induction cs as [|c cs IH]; intros w Hlive; simpl; [done|].
  by apply IH, live_coreStep.
Qed.

Lemma postTargets_app (tr1 tr2 : list Event) :
  postTargets (tr1 ++ tr2) = postTargets tr1 ++ postTargets tr2.
Proof.
  induction tr1 as [|e tr1 IH]; simpl; [done|].
  destruct e; simpl; by rewrite IH.
Qed.

Lemma postTargets_gossipTick t w :
  Peers (self w) ≠ [] →
  postTargets (trace (gossipTick t w))
  = postTargets (trace w)
    ++ [gossipUrl (nth (rnd t mod length (Peers (self w))) (Peers (self w)) ""%string)].
Proof.
  intros Hne. unfold gossipTick.
  destruct (Peers (self w)) as [|p0 peers] eqn:Hpeers; [done|].
  change (length (p0 :: peers) =? 0)%nat with false. cbv iota.
  rewrite gossipWithPeer_unfold.
  destruct (post t); unfold emit; cbn [trace]; rewrite !postTargets_app;
    cbn [postTargets]; by rewrite ?app_nil_r.
Qed.

End EngineFacts.

(** X8. No operation of the core ever deletes an entry: after any
    sequence of writes, merges, snapshots, ticks and deliveries the store
    still has every id it had. *)
Theorem X8_entries_never_deleted (cs : list CoreOp) (w : World) :
  dom (store w) ⊆ dom (store (coreRun cs w)).
Proof.
  revert w. induction cs as [|c cs IH]; intros w; simpl; [done|].
  etransitivity; [apply (store_coreStep_dom c)|apply IH].
Qed.

(** X9. The gossip loop only reads: whatever the ticks draw and however
    the posts end, the loop changes no map object and no field of the
    server. *)
Theorem X9_gossip_loop_reads_only (ticks : list Tick) (w : World) :
  heap (gossipLoop ticks w) = heap w ∧ self (gossipLoop ticks w) = self w.
Proof.
  revert w. induction ticks as [|t ticks IH]; intros w; simpl; [done|].
  destruct (IH (gossipTick t w)) as [-> ->].
  by rewrite heap_gossipTick, self_gossipTick.
Qed.

(** X10. With a non-empty peer list every tick makes exactly one post,
    whether the posts before it failed or not, and each post goes to the
    gossip URL of the peer at the drawn index of [Peers]. *)
Theorem X10_one_post_per_tick (ticks : list Tick) (w : World) :
  Peers (self w) ≠ [] →
  postTargets (trace (gossipLoop ticks w))
  = postTargets (trace w)
    ++ map (λ t, gossipUrl (nth (rnd t mod length (Peers (self w)))
                              (Peers (self w)) ""%string)) ticks.
Proof.
  revert w. induction ticks as [|t ticks IH]; intros w Hne; simpl.
  - by rewrite app_nil_r.
  - rewrite IH by (by rewrite self_gossipTick).
    rewrite self_gossipTick, postTargets_gossipTick by done.
    by rewrite <-app_assoc.
Qed.

Lemma X10_one_post_per_tick_witness :
  let w :=
    NewGameServer "node1" "localhost:8081"
      ["localhost:8082"; "localhost:8083"; "localhost:8084"]%string in
  let ticks := [mkTick 4 PostErr; mkTick 0 PostResp; mkTick 5 PostErr] in
  Peers (self w) ≠ []
  ∧ postTargets (trace (gossipLoop ticks w))
    = ["http://localhost:8083/gossip"; "http://localhost:8082/gossip";
       "http://localhost:8084/gossip"]%string.
Proof.
  intros w ticks.
  assert (Peers (self w) ≠ []) as Hne by (simpl; discriminate).
  split; [exact Hne|].
  exact (X10_one_post_per_tick ticks w Hne).
Defined.

(** X11. A tick with a non-empty peer list selects a member of [Peers]
    (the index drawn is always in range) and posts to it the contents
    that the store has at that moment. *)
Theorem X11_tick_posts_store (t : Tick) (w : World) :
  Peers (self w) ≠ [] →
  ∃ peerAddr,
    peerAddr ∈ Peers (self w)
    ∧ trace (gossipTick t w)
      = trace w
        ++ [EvRandIntn (length (Peers (self w)));
            EvPost ("http://" +:+ peerAddr +:+ "/gossip")%string (store w)]
        ++ match post t with PostErr => [] | PostResp => [EvCloseBody] end.
Proof. apply gossipTick_posts. Qed.

Lemma X11_tick_posts_store_witness :
  let w :=
    UpdatePlayerScore 10 "alice" 5
      (NewGameServer "node1" "localhost:8081" ["localhost:8082"]%string) in
  Peers (self w) ≠ []
  ∧ ∃ peerAddr,
      peerAddr ∈ Peers (self w)
      ∧ trace (gossipTick (mkTick 7 PostErr) w)
        = trace w
          ++ [EvRandIntn (length (Peers (self w)));
              EvPost ("http://" +:+ peerAddr +:+ "/gossip")%string (store w)]
          ++ [].
Proof.
  intros w.
  assert (Peers (self w) ≠ []) as Hne by (simpl; discriminate).
  split; [exact Hne|].
  exact (X11_tick_posts_store (mkTick 7 PostErr) w Hne).
Defined.

(** X12. In every state that a node can reach from [NewGameServer] by
    operations of the core, [gs.PlayerMap] designates a map object, and
    the map that [GetPlayerState] returns is another object than the
    store. *)
Theorem X12_snapshot_never_aliases
    (id addr : string) (peers : list string) (cs : list CoreOp) :
  let w := coreRun cs (NewGameServer id addr peers) in
  live w ∧ fst (GetPlayerState w) ≠ PlayerMap (self w).
Proof.
  intros w.
  assert (live w) as Hlive by apply live_coreRun, live_NewGameServer.
  split; [done|]. intros Heq.
  pose proof (GetPlayerState_fresh w) as Hfresh. rewrite Heq in Hfresh.
  destruct Hlive as [m Hm]. congruence.
Qed.

(** X13. The copy that [GetPlayerState] makes does not depend on the
    order in which the runtime enumerates the store: the copy loop run
    over any enumeration of a map, into an empty map, rebuilds that
    map. *)
Theorem X13_copy_enumeration_order
    (entries : list (string * PlayerState)) (m : PlayerMapT) :
  entries ≡ₚ map_to_list m → copyLoop entries ∅ = m.
Proof.
  intros Hp. apply map_eq; intros k.
  assert (NoDup entries.*1) as Hnd by (rewrite Hp; apply NoDup_fst_map_to_list).
  rewrite copyLoop_lookup, lookup_empty by done.
  assert ((list_to_map entries : PlayerMapT) = m) as ->.
  { rewrite <-(list_to_map_to_list m) at 1. by apply list_to_map_proper. }
  by destruct (m !! k).
Qed.

Lemma X13_copy_enumeration_order_witness :
  let m : PlayerMapT :=
    <[ "bob"%string := {| Score := 4; Timestamp := 7 |} ]>
      {[ "alice"%string := {| Score := 2; Timestamp := 101 |} ]} in
  reverse (map_to_list m) ≡ₚ map_to_list m
  ∧ copyLoop (reverse (map_to_list m)) ∅ = m.
Proof.
  intros m.
  assert (reverse (map_to_list m) ≡ₚ map_to_list m) as Hp
    by apply reverse_Permutation.
  split; [exact Hp|].
  exact (X13_copy_enumeration_order _ m Hp).
Defined.

(** ** The handlers of the transport *)

Module TransportMore.
Import Transport TransportFacts.

Local Open Scope string_scope.
Local Open Scope Z_scope.

Lemma queryGet_missing key (q : list (string * string)) :
  key ∉ q.*1 → queryGet key q = "".
Proof.
  induction q as [|[k v] q IH]; simpl; [done|].
  rewrite not_elem_of_cons. intros [Hne Hnotin].
  destruct (String.eqb_spec k key); [congruence|auto].
Qed.


Lemma scanDigits_app u c rest acc :
  allDigits u = true → isDigit c = false →
  scanDigits (u +:+ String c rest) acc = scanDigits u acc.
Proof.
  revert acc. induction u as [|d u IH]; intros acc Hall Hc; simpl in *.
  - by rewrite Hc.
  - apply andb_true_iff in Hall as [Hd Hall]. rewrite Hd. by apply IH.
Qed.

Lemma scanNumber_app negative u c rest n :
  allDigits u = true → isDigit c = false →
  scanNumber negative u = Some n →
  scanNumber negative (u +:+ String c rest) = Some n.
Proof.
  intros Hall Hc. destruct u as [|d u]; [done|].
  unfold scanNumber. change (String d u +:+ String c rest)
    with (String d (u +:+ String c rest)).
  destruct (isDigit d) eqn:Hd; [|done].
  change (String d (u +:+ String c rest)) with (String d u +:+ String c rest).
  rewrite scanDigits_app by done. by rewrite ?Hd.
Qed.


(** X15. A request that lacks the [playerId] or the [score] parameter
    is answered with 400 and changes nothing. *)
Theorem X15_missing_parameter (now : Z) (r : Request) (w : World) :
  "playerId" ∉ (Query r).*1 ∨ "score" ∉ (Query r).*1 →
  StatusCode (fst (HandleUpdate now r w)) = 400
  ∧ snd (HandleUpdate now r w) = w.
Proof.
  intros Hmiss. apply HandleUpdate_rejects.
  destruct Hmiss as [H|H]; apply queryGet_missing in H; auto.
Qed.

Lemma X15_missing_parameter_witness :
  let r := {| Query := [("playerId", "alice"); ("points", "7")] |} in
  let w := NewGameServer "node1" "localhost:8081" [] in
  ("playerId" ∉ (Query r).*1 ∨ "score" ∉ (Query r).*1)
  ∧ StatusCode (fst (HandleUpdate 5 r w)) = 400
  ∧ snd (HandleUpdate 5 r w) = w.
Proof.
  intros r w.
  assert ("playerId" ∉ (Query r).*1 ∨ "score" ∉ (Query r).*1) as Hmiss.
  { right. simpl. rewrite !not_elem_of_cons. repeat split; try discriminate.
    apply not_elem_of_nil. }
  split; [exact Hmiss|].
  exact (X15_missing_parameter 5 r w Hmiss).
Defined.



(** X17. Every request with a non-empty id and a well-formed integer
    score (an optional sign and decimal digits only, within [int64]) is
    answered with 200 and reaches [UpdatePlayerScore] with the value of
    the integer. *)
Theorem X17_well_formed_update_accepted
    (now : Z) (r : Request) (w : World) (score : Z) :
  queryGet "playerId" (Query r) ≠ "" →
  wellFormedInt (queryGet "score" (Query r)) = Some score →
  HandleUpdate now r w
  = ({| StatusCode := 200; Body := "" |},
     UpdatePlayerScore now (queryGet "playerId" (Query r)) score w).
Proof. apply HandleUpdate_wellFormed. Qed.

Lemma X17_well_formed_update_accepted_witness :
  let r := {| Query := [("score", "-1500"); ("playerId", "player123")] |} in
  let w := NewGameServer "node1" "localhost:8081" [] in
  queryGet "playerId" (Query r) ≠ ""
  ∧ wellFormedInt (queryGet "score" (Query r)) = Some (-1500)
  ∧ HandleUpdate 5 r w
    = ({| StatusCode := 200; Body := "" |},
       UpdatePlayerScore 5 "player123" (-1500) w).
Proof.
  intros r w.
  assert (queryGet "playerId" (Query r) ≠ "") as Hid by (simpl; discriminate).
  assert (wellFormedInt (queryGet "score" (Query r)) = Some (-1500)) as Hwf
    by reflexivity.
  split; [exact Hid|]. split; [exact Hwf|].
  exact (X17_well_formed_update_accepted 5 r w (-1500) Hid Hwf).
Defined.

(** X18. The scanner reads a number and leaves the rest: a score string
    made of a well-formed integer followed by a character that is not a
    digit, and then by anything, is scanned to the value of the
    integer. *)
Theorem X18_text_after_number_unread
    (s : string) (n : Z) (c : Ascii.ascii) (rest : string) :
  wellFormedInt s = Some n →
  isDigit c = false →
  Sscanf_d (s +:+ String c rest) = Some n.
Proof.
  intros Hwf Hc. destruct s as [|c0 s0]; [done|].
  unfold wellFormedInt in Hwf. unfold Sscanf_d, scanInt.
  change (String c0 s0 +:+ String c rest) with (String c0 (s0 +:+ String c rest)).
  destruct (isSign c0) eqn:Hsign.
  - destruct (sign_not_blank c0 Hsign) as [Hnl Hsp].
    simpl skipSpace. rewrite Hnl, Hsp, Hsign.
    destruct (allDigits s0) eqn:Hall; [|done]. by apply scanNumber_app.
  - destruct (allDigits (String c0 s0)) eqn:Hall; [|done].
    assert (isDigit c0 = true) as Hd
      by (simpl in Hall; by apply andb_true_iff in Hall as [? _]).
    destruct (digit_not_blank c0 Hd) as [Hnl Hsp].
    simpl skipSpace. rewrite Hnl, Hsp, Hsign.
    change (String c0 (s0 +:+ String c rest)) with (String c0 s0 +:+ String c rest).
    by apply scanNumber_app.
Qed.

Lemma X18_text_after_number_unread_witness :
  wellFormedInt "+42" = Some 42
  ∧ isDigit (Ascii.ascii_of_nat 46) = false
  ∧ Sscanf_d ("+42" +:+ String (Ascii.ascii_of_nat 46) "5e3") = Some 42.
Proof.
  assert (wellFormedInt "+42" = Some 42) as Hwf by reflexivity.
  assert (isDigit (Ascii.ascii_of_nat 46) = false) as Hc by reflexivity.
  split; [exact Hwf|]. split; [exact Hc|].
  exact (X18_text_after_number_unread "+42" 42 _ "5e3" Hwf Hc).
Defined.

End TransportMore.

Module TransportGossip.
Import Transport.

Local Open Scope string_scope.
Local Open Scope Z_scope.

Lemma tsLe_refl (a : option Z) : tsLe a a = true.
Proof. destruct a; simpl; [apply Z.leb_refl|done]. Qed.

Lemma tsLe_tsMax (a b : option Z) : tsLe a (tsMax a b) = true.
Proof. destruct a, b; simpl; try done; apply Z.leb_le; lia. Qed.

Lemma lwwRule_exchange (a b : option PlayerState) :
  (∀ x y, a = Some x → b = Some y → Timestamp x = Timestamp y → x = y) →
  lwwRule a (lwwRule b a) = lwwRule b a.
Proof.
  intros Htie. destruct a as [[sa ta]|], b as [[sb tb]|]; simpl; try done.
  - destruct (Z.gtb_spec ta tb) as [Hgt|Hle]; simpl.
    + by rewrite Z.gtb_ltb, Z.ltb_irrefl.
    + destruct (Z.gtb_spec tb ta) as [Hgt'|Hle']; [done|].
      assert (ta = tb) as -> by lia.
      by rewrite (Htie _ _ eq_refl eq_refl eq_refl).
  - by rewrite Z.gtb_ltb, Z.ltb_irrefl.
Qed.

Lemma tsMax_exchange (a b : option Z) : tsMax a (tsMax b a) = tsMax b a.
Proof. destruct a, b; simpl; f_equal; lia. Qed.

Lemma HandleGetState_unfold encodeErr w :
  HandleGetState encodeErr w
  = ({| Headers := [("Content-Type", "application/json");
                    ("Access-Control-Allow-Origin", "*")];
        Encoded := load (fst (GetPlayerState w)) (heap (snd (GetPlayerState w)));
        Failure :=
          if encodeErr
          then Some (httpError "failed to encode state" StatusInternalServerError)
          else None |},
     snd (GetPlayerState w)).
Proof. done. Qed.

(** X19. No gossip request, whether its body decodes or not, lowers the
    timestamp stored for an id or removes an id. *)
Theorem X19_gossip_never_lowers (r : GossipRequest) (w : World) (playerId : string) :
  tsLe (Timestamp <$> store w !! playerId)
       (Timestamp <$> store (snd (HandleGossip r w)) !! playerId) = true.
Proof.
  unfold HandleGossip. destruct (Decoded r) as [incomingMap|]; cbn [snd].
  - rewrite store_MergeState, mergeMaps_lookup, lwwRule_timestamp.
    apply tsLe_tsMax.
  - apply tsLe_refl.
Qed.

(** X20. A push in each direction makes two nodes agree.  When node [b]
    handles a gossip request that decodes to the entries of node [a],
    and [a] then handles one that decodes to the entries [b] has
    afterwards, both stores hold the same entries, provided the two
    stores did not hold one id with equal timestamps and different
    scores. *)
Theorem X20_exchange_converges (a b : World) :
  let b' := snd (HandleGossip {| Decoded := Some (store a) |} b) in
  let a' := snd (HandleGossip {| Decoded := Some (store b') |} a) in
  tieConsistent (store a) (store b) = true →
  store a' = store b'.
Proof.
  intros b' a' Htie. subst a' b'. cbn [HandleGossip Decoded snd].
  rewrite !store_MergeState. apply map_eq; intros k.
  rewrite !mergeMaps_lookup. apply lwwRule_exchange.
  intros x y. by apply tieConsistent_lookup.
Qed.

Lemma X20_exchange_converges_witness :
  let a :=
    UpdatePlayerScore 10 "alice" 5 (NewGameServer "node1" "localhost:8081" []) in
  let b :=
    UpdatePlayerScore 12 "alice" 6
      (UpdatePlayerScore 11 "bob" 9 (NewGameServer "node2" "localhost:8082" [])) in
  tieConsistent (store a) (store b) = true
  ∧ store (snd (HandleGossip
                  {| Decoded :=
                       Some (store (snd (HandleGossip {| Decoded := Some (store a) |} b))) |}
                  a))
    = store (snd (HandleGossip {| Decoded := Some (store a) |} b)).
Proof.
  intros a b.
  assert (tieConsistent (store a) (store b) = true) as Htie
    by (vm_compute; reflexivity).
  split; [exact Htie|].
  exact (X20_exchange_converges a b Htie).
Defined.

(** X21. After the same exchange the two stores hold the same ids with
    the same timestamps, whatever they held before. *)
Theorem X21_exchange_same_timestamps (a b : World) (playerId : string) :
  let b' := snd (HandleGossip {| Decoded := Some (store a) |} b) in
  let a' := snd (HandleGossip {| Decoded := Some (store b') |} a) in
  Timestamp <$> store a' !! playerId = Timestamp <$> store b' !! playerId.
Proof.
  intros b' a'. subst a' b'. cbn [HandleGossip Decoded snd].
  rewrite !store_MergeState, !mergeMaps_lookup, !lwwRule_timestamp.
  apply tsMax_exchange.
Qed.

(** X22. [HandleGetState] hands to the encoder exactly the entries of
    the store, and it reads only: the store, the server and the trace
    of effects are as before, whether the encoding succeeds or not. *)
Theorem X22_state_handler_reads (encodeErr : bool) (w : World) :
  Encoded (fst (HandleGetState encodeErr w)) = store w
  ∧ store (snd (HandleGetState encodeErr w)) = store w
  ∧ self (snd (HandleGetState encodeErr w)) = self w
  ∧ trace (snd (HandleGetState encodeErr w)) = trace w.
Proof.
  rewrite HandleGetState_unfold. cbn [fst snd Encoded].
  by rewrite snapshot_contents, store_GetPlayerState.
Qed.



End TransportGossip.

(** ** Process start and the cluster script *)

Module MainFacts.
Import Main.

Local Open Scope string_scope.

Lemma splitComma_cons s : ∃ first others, splitComma s = first :: others.
Proof.
  induction s as [|c s (first & others & IH)]; simpl; [eauto|].
  destruct (isComma c); [eauto|]. rewrite IH. eauto.
Qed.

Lemma splitComma_commaFree x : commaFree x = true → splitComma x = [x].
Proof.
  induction x as [|c x IH]; simpl; [done|].
  intros [Hc Hx]%andb_true_iff. apply negb_true_iff in Hc.
  by rewrite Hc, IH.
Qed.

Lemma splitComma_app x s :
  commaFree x = true → splitComma (x +:+ "," +:+ s) = x :: splitComma s.
Proof.
  induction x as [|c x IH]; simpl; [done|].
  intros [Hc Hx]%andb_true_iff. apply negb_true_iff in Hc.
  rewrite Hc. simpl in IH. by rewrite IH.
Qed.

Lemma length_splitComma s : length (splitComma s) = S (commas s).
Proof.
  induction s as [|c s IH]; simpl; [done|].
  destruct (isComma c); simpl; [by rewrite IH|].
  destruct (splitComma_cons s) as (first & others & Hs).
  rewrite Hs in *. simpl in *. done.
Qed.

Lemma splitComma_join (l : list string) :
  forallb commaFree l = true → l ≠ [] → splitComma (joinComma l) = l.
Proof.
  induction l as [|x l IH]; [done|]. intros [Hx Hl]%andb_true_iff _.
  destruct l as [|y l].
  - simpl. by apply splitComma_commaFree.
  - change (joinComma (x :: y :: l)) with (x +:+ "," +:+ joinComma (y :: l)).
    rewrite splitComma_app by done. f_equal. by apply IH.
Qed.

Lemma joinComma_empty (l : list string) :
  joinComma l = "" → l = [] ∨ l = [""].
Proof.
  destruct l as [|x [|y l]]; simpl; [auto|intros ->; auto|].
  destruct x; discriminate.
Qed.

Lemma parsePeers_join (l : list string) :
  forallb commaFree l = true → l ≠ [""] → parsePeers (joinComma l) = l.
Proof.
  intros Hfree Hne. unfold parsePeers.
  destruct (String.eqb_spec (joinComma l) "") as [Hempty|Hnonempty].
  - by destruct (joinComma_empty l Hempty) as [->| ->].
  - apply splitComma_join; [done|]. by intros ->.
Qed.

End MainFacts.

Module ClusterFacts.
Import Main Cluster MainFacts.

Local Open Scope string_scope.

Lemma append_assoc' (a b c : string) : (a +:+ b) +:+ c = a +:+ (b +:+ c).
Proof.
  induction a as [|x a IH]; [done|].
  change (String x ((a +:+ b) +:+ c) = String x (a +:+ (b +:+ c))).
  by f_equal.
Qed.

Lemma commaFree_app (a b : string) :
  commaFree a = true → commaFree b = true → commaFree (a +:+ b) = true.
Proof.
  induction a as [|x a IH]; simpl; [done|].
  intros [Hx Ha]%andb_true_iff Hb. rewrite Hx. simpl. by apply IH.
Qed.

Lemma pretty_N_char_no_comma d : isComma (pretty_N_char d) = false.
Proof. unfold pretty_N_char. by repeat case_match. Qed.

Lemma pretty_N_go_commaFree (x : BinNums.N) (s : string) :
  commaFree s = true → commaFree (pretty_N_go x s) = true.
Proof.
  revert s. induction (N.lt_wf_0 x) as [x _ IH]; intros s Hs.
  assert (x = 0 ∨ 0 < x)%N as [->|Hpos] by lia.
  - by rewrite pretty_N_go_0.
  - rewrite pretty_N_go_step by done. apply IH; [by apply N.div_lt|].
    simpl. by rewrite pretty_N_char_no_comma.
Qed.

Lemma pretty_nat_commaFree (n : nat) : commaFree (pretty n) = true.
Proof.
  unfold pretty, pretty_nat, pretty, pretty_N.
  case_decide; [done|]. by apply pretty_N_go_commaFree.
Qed.

Lemma nodeAddr_commaFree base j : commaFree (nodeAddr base j) = true.
Proof. unfold nodeAddr. apply commaFree_app; [done|apply pretty_nat_commaFree]. Qed.

Lemma nodeAddr_nonempty base j : nodeAddr base j ≠ "".
Proof. unfold nodeAddr. simpl. discriminate. Qed.

Lemma nodeAddr_inj base j j' : nodeAddr base j = nodeAddr base j' → j = j'.
Proof.
  unfold nodeAddr. simpl. intros [= H].
  change (pretty (base + j)%nat = pretty (base + j')%nat) in H.
  apply pretty_nat_inj in H. lia.
Qed.

Lemma joinComma_snoc (l : list string) x :
  l ≠ [] → joinComma (l ++ [x])%list = joinComma l +:+ "," +:+ x.
Proof.
  induction l as [|y l IH]; [done|]. intros _.
  destruct l as [|z l]; [done|].
  change (joinComma ((y :: z :: l) ++ [x])%list)
    with (y +:+ "," +:+ joinComma ((z :: l) ++ [x])%list).
  rewrite IH by done.
  change (joinComma (y :: z :: l)) with (y +:+ "," +:+ joinComma (z :: l)).
  by rewrite !append_assoc'.
Qed.

Lemma joinComma_addrs_nonempty base (ks : list nat) :
  ks ≠ [] → joinComma (nodeAddr base <$> ks) ≠ "".
Proof.
  destruct ks as [|k [|k' ks]]; [done| |]; intros _ H.
  - by apply (nodeAddr_nonempty base k).
  - simpl in H. discriminate.
Qed.

(** The loop appends, in order, the addresses of the nodes other than
    [i]. *)
Lemma peersLoop_join base i (js ks : list nat) :
  peersLoop base i js (joinComma (nodeAddr base <$> ks))
  = joinComma (nodeAddr base <$> (ks ++ filter (λ j, j ≠ i) js)%list).
Proof.
  revert ks. induction js as [|j js IH]; intros ks; simpl.
  - by rewrite filter_nil, app_nil_r.
  - destruct (Nat.eqb_spec i j) as [->|Hne].
    + rewrite filter_cons_False by (intros H; by apply H). apply IH.
    + rewrite filter_cons_True by (intros ->; by apply Hne).
      replace (ks ++ j :: filter (λ j0, j0 ≠ i) js)%list
        with ((ks ++ [j]) ++ filter (λ j0, j0 ≠ i) js)%list
        by (by rewrite <-app_assoc).
      rewrite <-IH.
      destruct ks as [|k ks].
      * done.
      * destruct (String.eqb_spec (joinComma (nodeAddr base <$> k :: ks)) "")
          as [Hempty|_].
        { by apply joinComma_addrs_nonempty in Hempty. }
        f_equal. rewrite fmap_app. simpl (nodeAddr base <$> [j]).
        by rewrite joinComma_snoc.
Qed.

Lemma peersArg_join n base i :
  peersArg n base i = joinComma (nodeAddr base <$> filter (λ j, j ≠ i) (seq 1 n)).
Proof. unfold peersArg. apply (peersLoop_join base i (seq 1 n) []). Qed.

Lemma forallb_commaFree_addrs base (ks : list nat) :
  forallb commaFree (nodeAddr base <$> ks) = true.
Proof.
  induction ks as [|k ks IH]; [done|].
  rewrite fmap_cons. cbn [forallb]. by rewrite nodeAddr_commaFree, IH.
Qed.

Lemma Peers_startNode n base i :
  Peers (self (startNode n base i))
  = nodeAddr base <$> filter (λ j, j ≠ i) (seq 1 n).
Proof.
  unfold startNode, mainNode. cbn [NewGameServer self Peers].
  rewrite peersArg_join. apply parsePeers_join.
  - apply forallb_commaFree_addrs.
  - by destruct (filter _ _) as [|k [|k' ks]].
Qed.

End ClusterFacts.

Module ClusterMore.
Import Main Cluster MainFacts ClusterFacts.

Local Open Scope string_scope.

Lemma filter_ne_absent (x : nat) (l : list nat) :
  x ∉ l → filter (λ j, j ≠ x) l = l.
Proof.
  induction l as [|y l IH]; [done|].
  rewrite not_elem_of_cons. intros [Hne Hnotin].
  rewrite filter_cons_True by (intros ->; by apply Hne). by rewrite IH.
Qed.

Lemma length_filter_ne (x : nat) (l : list nat) :
  NoDup l → x ∈ l → S (length (filter (λ j, j ≠ x) l)) = length l.
Proof.
  induction l as [|y l IH]; intros Hnd Hin.
  - by apply elem_of_nil in Hin.
  - apply NoDup_cons in Hnd as [Hnotin Hnd].
    destruct (decide (y = x)) as [->|Hne].
    + rewrite filter_cons_False by (intros H; by apply H).
      by rewrite filter_ne_absent.
    + rewrite filter_cons_True by done.
      apply elem_of_cons in Hin as [->|Hin]; [done|].
      simpl. by rewrite IH.
Qed.

(** X24. A node started without the flag [-peers] (or with an empty
    one) has an empty peer list, not a list with one empty address, and
    its gossip loop never does anything, however many ticks pass. *)
Theorem X24_no_peers_flag_no_gossip (id httpAddr : string) (ticks : list Tick) :
  Peers (self (mainNode id httpAddr "")) = []
  ∧ gossipLoop ticks (mainNode id httpAddr "") = mainNode id httpAddr "".
Proof. split; [done|]. by apply gossipLoop_no_peers. Qed.

(** X25. The peer list that [main] reads from a comma-separated flag is
    the list that was joined: addresses without commas, joined with
    commas, are split into the same addresses in the same order (the
    one list that is not read back is the list of a single empty
    address, which gives the empty flag). *)
Theorem X25_peers_flag_round_trip (l : list string) :
  forallb commaFree l = true →
  l ≠ [""] →
  parsePeers (joinComma l) = l.
Proof. apply parsePeers_join. Qed.

Lemma X25_peers_flag_round_trip_witness :
  let l := ["localhost:8082"; ""; "localhost:8084"] in
  forallb commaFree l = true
  ∧ l ≠ [""]
  ∧ parsePeers (joinComma l) = l.
Proof.
  intros l.
  assert (forallb commaFree l = true) as Hfree by reflexivity.
  assert (l ≠ [""]) as Hne by discriminate.
  split; [exact Hfree|]. split; [exact Hne|].
  exact (X25_peers_flag_round_trip l Hfree Hne).
Defined.

(** X26. A non-empty flag [-peers] with [k] commas gives [k + 1] peers:
    nothing is trimmed or dropped, so two commas in a row or a comma at
    the end give a peer with an empty address. *)
Theorem X26_peers_flag_count (peersStr : string) :
  peersStr ≠ "" →
  length (parsePeers peersStr) = S (commas peersStr).
Proof.
  intros Hne. unfold parsePeers.
  destruct (String.eqb_spec peersStr ""); [done|]. apply length_splitComma.
Qed.

Lemma X26_peers_flag_count_witness :
  "localhost:8082,,localhost:8084," ≠ ""
  ∧ length (parsePeers "localhost:8082,,localhost:8084,") = 4%nat.
Proof.
  assert ("localhost:8082,,localhost:8084," ≠ "") as Hne by discriminate.
  split; [exact Hne|].
  exact (X26_peers_flag_count _ Hne).
Defined.

(** X27. The script starts node [i] with the addresses of all the other
    nodes as its peers, in the order of their numbers; with a single
    node the peer list is empty. *)
Theorem X27_cluster_peers (n base i : nat) :
  Peers (self (startNode n base i))
  = nodeAddr base <$> filter (λ j, j ≠ i) (seq 1 n).
Proof. apply Peers_startNode. Qed.

(** X28. The peers of the cluster form a complete graph without loops:
    the address of node [j] is among the peers of node [i] exactly when
    [j] is another node than [i]; no node has its own address as a
    peer. *)
Theorem X28_cluster_mesh (n base i j : nat) :
  (1 <= j <= n)%nat →
  nodeAddr base j ∈ Peers (self (startNode n base i)) ↔ j ≠ i.
Proof.
  intros Hj. rewrite Peers_startNode. split.
  - intros (j' & Heq & Hin)%list_elem_of_fmap.
    apply nodeAddr_inj in Heq. subst j'.
    by apply list_elem_of_filter in Hin as [? _].
  - intros Hne. apply list_elem_of_fmap_2, list_elem_of_filter.
    split; [done|]. apply elem_of_seq. lia.
Qed.

Lemma X28_cluster_mesh_witness :
  (1 <= 7 <= N)%nat
  ∧ (nodeAddr BASE_PORT 7 ∈ Peers (self (startNode N BASE_PORT 3)) ↔ 7%nat ≠ 3%nat).
Proof.
  assert (1 <= 7 <= N)%nat as Hj by (unfold N; lia).
  split; [exact Hj|].
  exact (X28_cluster_mesh N BASE_PORT 3 7 Hj).
Defined.

(** X29. Every node of a cluster of [n] has [n - 1] peers, all
    different. *)
Theorem X29_cluster_peer_count (n base i : nat) :
  (1 <= i <= n)%nat →
  S (length (Peers (self (startNode n base i)))) = n
  ∧ NoDup (Peers (self (startNode n base i))).
Proof.
  intros Hi. rewrite Peers_startNode. split.
  - rewrite length_fmap, length_filter_ne; [apply length_seq|apply NoDup_seq|].
    apply elem_of_seq. lia.
  - apply NoDup_fmap_2_strong; [|apply NoDup_filter, NoDup_seq].
    intros x y _ _. apply nodeAddr_inj.
Qed.

Lemma X29_cluster_peer_count_witness :
  (1 <= 3 <= N)%nat
  ∧ S (length (Peers (self (startNode N BASE_PORT 3)))) = N
  ∧ NoDup (Peers (self (startNode N BASE_PORT 3))).
Proof.
  assert (1 <= 3 <= N)%nat as Hi by (unfold N; lia).
  split; [exact Hi|].
  exact (X29_cluster_peer_count N BASE_PORT 3 Hi).
Defined.

End ClusterMore.
